(** * hubfs: path resolution and handle management

    A shallow embedding of [hubfs.go] (package [hubfs]) and of the part of
    the [providers] package it consumes, followed by the properties of the
    resolver ([openex]), the attribute projector ([fuseStat], [getattr]),
    the handle table ([Open], [Opendir], [Release], [Releasedir]) and the
    directory listing ([Readdir]).

    Conventions of the embedding:
    - Go strings are byte strings: [string] of the Standard Library.
    - Go [int], [uint32], [uint64], [int64] are [Z]; the one place where
      the source can wrap around ([fs.fh++] on a [uint64]) writes the
      wrap-around out.
    - Provider calls, the [fill] callback of [Readdir] and nil dereferences
      are effects: a small monad [M] threads an abstract [World], records
      every provider call and every [fill] call in a trace, and has a
      [Panic] outcome for what Go answers with a run-time panic.
    - [trace] and [tracef] only write to the log of the process and are
      left out.
    - [Read] is embedded for calls that run while no other call of the
      file system does: each region under the lock is one step.  The
      retry loop of [Getattr] is a recursion on the retries left. *)

From Stdlib Require Import ZArith String Ascii List Lia OctalString.
From stdpp Require Import base option list gmap strings.

Local Open Scope string_scope.
Local Open Scope list_scope.
Local Open Scope Z_scope.

(** ** Go's [strings] package, as far as [hubfs.go] calls it *)

Module strings.

(** [strings.HasPrefix(s, prefix)] *)
Definition HasPrefix (s pre : string) : bool := String.prefix pre s.

(** [strings.HasSuffix(s, suffix)]:
    [len(s) >= len(suffix) && s[len(s)-len(suffix):] == suffix] *)
Definition HasSuffix (s suf : string) : bool :=
  (String.length suf <=? String.length s)%nat &&
  String.eqb
    (String.substring (String.length s - String.length suf)
                      (String.length suf) s)
    suf.

(** [strings.TrimPrefix(s, prefix)]:
    [if HasPrefix(s, prefix) { return s[len(prefix):] }; return s] *)
Definition TrimPrefix (s pre : string) : string :=
  if HasPrefix s pre
  then String.substring (String.length pre)
                        (String.length s - String.length pre) s
  else s.

(** [strings.TrimSuffix(s, suffix)]:
    [if HasSuffix(s, suffix) { return s[:len(s)-len(suffix)] }; return s] *)
Definition TrimSuffix (s suf : string) : string :=
  if HasSuffix s suf
  then String.substring 0 (String.length s - String.length suf) s
  else s.

(** [strings.ReplaceAll(s, old, new)] for a non-empty [old] (the source
    passes the one-byte constants [" "] and ["/"]): matches are found
    left to right and do not overlap.  [skip] counts the bytes of a match
    that are still to be dropped. *)
Fixpoint replace_from (old new : string) (skip : nat) (s : string) : string :=
  match s with
  | EmptyString => EmptyString
  | String a s' =>
      match skip with
      | S k => replace_from old new k s'
      | O =>
          if String.prefix old s
          then new +:+ replace_from old new (String.length old - 1) s'
          else String a (replace_from old new O s')
      end
  end.

Definition ReplaceAll (s old new : string) : string :=
  replace_from old new O s.

(** [strings.Split(s, sep)] for a non-empty [sep] (the source passes
    ["/"]): the pieces of [s] between the occurrences of [sep]; there is
    always at least one piece.  [split_from] returns the piece that is
    being read and the pieces after it. *)
Fixpoint split_from (sep : string) (skip : nat) (s : string)
  : string * list string :=
  match s with
  | EmptyString => (EmptyString, [])
  | String a s' =>
      match skip with
      | S k => split_from sep k s'
      | O =>
          if String.prefix sep s
          then let '(p, ps) := split_from sep (String.length sep - 1) s' in
               (EmptyString, p :: ps)
          else let '(p, ps) := split_from sep O s' in
               (String a p, ps)
      end
  end.

Definition Split (s sep : string) : list string :=
  let '(p, ps) := split_from sep O s in p :: ps.

(** [strings.Join(elems, sep)] *)
Fixpoint Join (elems : list string) (sep : string) : string :=
  match elems with
  | [] => EmptyString
  | [e] => e
  | e :: es => e +:+ sep +:+ Join es sep
  end.

(** [strings.IndexFunc(s, f)]: the index of the first code point of [s]
    that satisfies [f], or [-1].  The source only asks whether a rune is
    ['.'] (U+002E).  In UTF-8 the byte 0x2E occurs only as that rune, and
    Go decodes a malformed sequence one byte at a time without consuming
    a following 0x2E, so scanning the bytes finds a ['.'] exactly when
    scanning the runes does; the model scans bytes. *)
Fixpoint index_from (f : ascii → bool) (i : Z) (s : string) : Z :=
  match s with
  | EmptyString => -1
  | String a s' => if f a then i else index_from f (i + 1) s'
  end.

Definition IndexFunc (s : string) (f : ascii → bool) : Z := index_from f 0 s.

End strings.

(** ** Go's [path] package: [Clean] and [Join] *)

Module pathutil.

(** [path.Clean] reads the path one element at a time and keeps the
    cleaned elements in a buffer.  The model keeps the buffer as the list
    of its elements, last element first; [dotdot] is the number of
    leading [..] elements of a relative path, below which a [..] cannot
    backtrack (in the Go source: the index in the buffer where [..] must
    stop, [out.w > dotdot] being "can backtrack"). *)
Fixpoint clean_elems (rooted : bool) (elems : list string)
         (out : list string) (dotdot : nat) : list string :=
  match elems with
  | [] => rev out
  | e :: es =>
      if String.eqb e "" then
        (* empty path element *)
        clean_elems rooted es out dotdot
      else if String.eqb e "." then
        (* . element *)
        clean_elems rooted es out dotdot
      else if String.eqb e ".." then
        (* .. element: remove to last / *)
        if (dotdot <? length out)%nat then
          (* can backtrack *)
          clean_elems rooted es (tail out) dotdot
        else if negb rooted then
          (* cannot backtrack, but not rooted, so append .. element *)
          clean_elems rooted es (".." :: out) (S (length out))
        else
          clean_elems rooted es out dotdot
      else
        (* real path element *)
        clean_elems rooted es (e :: out) dotdot
  end.

Definition Clean (path : string) : string :=
  if String.eqb path "" then "."
  else
    let rooted := strings.HasPrefix path "/" in
    let out := clean_elems rooted (strings.Split path "/") [] 0 in
    if rooted then "/" +:+ strings.Join out "/"
    else match out with
         | [] => "."  (* Turn empty string into "." *)
         | _ => strings.Join out "/"
         end.

(** [path.Join(elem...)]: empty elements before the first non-empty one
    are ignored, the rest is joined with slashes and cleaned; the result
    is empty when every element is. *)
Fixpoint Join (elem : list string) : string :=
  match elem with
  | [] => ""
  | e :: es =>
      if String.eqb e "" then Join es
      else Clean (strings.Join elem "/")
  end.

End pathutil.

(** ** [split] (hubfs.go) *)

(** [if 1 == len(comp) && "" == comp[0] { return []string{} }; return comp] *)
Definition split_tail (comp : list string) : list string :=
  match comp with
  | [c] => if String.eqb c "" then [] else comp
  | _ => comp
  end.

(** [comp := strings.Split(path, "/")[1:]]: [Split] never returns an empty
    slice, so the slice expression cannot fail. *)
Definition split (path : string) : list string :=
  let comp := tail (strings.Split path "/") in
  split_tail comp.

(** ** The ref token of a path (depth 2 of [openex]) *)

(** Filename token to ref candidate: [c = strings.ReplaceAll(c, " ", "/")]. *)
Definition Decode (c : string) : string := strings.ReplaceAll c " " "/".

(** Ref name to filename token: the normalisation of [lst[i]] from
    [r := obs.ref.Name()]. *)
Definition Encode (r : string) : string :=
  let n := strings.TrimPrefix r "refs/heads/" in
  let n := if String.eqb r n then
             let n := strings.TrimPrefix r "refs/tags/" in
             if String.eqb r n then r else n
           else n in
  strings.ReplaceAll n "/" " ".

(** [s] contains the byte [a]. *)
Fixpoint has_byte (a : ascii) (s : string) : bool :=
  match s with
  | EmptyString => false
  | String b s' => Ascii.eqb a b || has_byte a s'
  end.

(** An element of a cleaned path: not empty and without a separator. *)
Definition clean_elem (e : string) : Prop :=
  e ≠ "" ∧ has_byte "/" e = false.

(** ** Constants of the FUSE binding *)

Module fuse.
Definition S_IFMT  : Z := Eval cbv in OctalString.to_Z "0o170000".
Definition S_IFDIR : Z := Eval cbv in OctalString.to_Z "0o040000".
Definition S_IFREG : Z := Eval cbv in OctalString.to_Z "0o100000".
Definition S_IFLNK : Z := Eval cbv in OctalString.to_Z "0o120000".
Definition ENOENT : Z := 2.
Definition EIO    : Z := 5.
Definition EINVAL : Z := 22.
End fuse.

(** The octal literals of [hubfs.go]. *)
Definition o0160000 : Z := Eval cbv in OctalString.to_Z "0o160000". (* submodule *)
Definition o0755 : Z := Eval cbv in OctalString.to_Z "0o755".
Definition o0777 : Z := Eval cbv in OctalString.to_Z "0o777".
Definition o0644 : Z := Eval cbv in OctalString.to_Z "0o644".
Definition o0400 : Z := Eval cbv in OctalString.to_Z "0o400".
Definition o0100 : Z := Eval cbv in OctalString.to_Z "0o100".

(** A git mode that is neither a directory, a symlink nor a submodule: the
    default case of the [switch] of [fuseStat]. *)
Definition regular_class (mode : Z) : Prop :=
  Z.land mode fuse.S_IFMT ≠ fuse.S_IFDIR ∧
  Z.land mode fuse.S_IFMT ≠ fuse.S_IFLNK ∧
  Z.land mode fuse.S_IFMT ≠ o0160000.

(** ** The [providers] package, as consumed by [hubfs.go] *)

(** Go's [error]: the sentinel [providers.ErrNotFound] and everything else. *)
Inductive error : Type :=
| ErrNotFound
| ErrOther (msg : string).

(** A Go result pair [(value, err)] of a provider call.  Providers follow
    the Go convention that exactly one of the two is non-nil (so does
    [emptyRepositoryT]: [return nil, ErrNotFound], [return []Ref{}, nil]). *)
Inductive result (A : Type) : Type :=
| Val (a : A)
| Err (e : error).
Arguments Val {A} a.
Arguments Err {A} e.

(** The interfaces [Client], [Owner], [Repository], [Ref] and [TreeEntry],
    the readers they hand out, and the clock.  An interface value that the
    source passes as an argument may be nil and is an [option]; a method
    receiver is a value of the carrier type (calling a method on nil
    panics, see [deref] below).  Calls that reach the hosting service
    thread the [World]. *)
Class Providers : Type := {
  World : Type;
  Owner : Type;
  Repository : Type;
  Ref : Type;
  TreeEntry : Type;
  ReaderAt : Type;
  Time : Type;
  Timespec : Type;
  (* Client *)
  OpenOwner : string → World → result Owner * World;
  CloseOwner : option Owner → World → World;
  OpenRepository : option Owner → string → World → result Repository * World;
  CloseRepository : option Repository → World → World;
  GetOwners : World → result (list Owner) * World;
  GetRepositories : option Owner → World → result (list Repository) * World;
  (* Owner *)
  Owner_Name : Owner → string;
  (* Repository *)
  Repository_Name : Repository → string;
  GetRefs : Repository → World → result (list Ref) * World;
  GetRef : Repository → string → World → result Ref * World;
  GetTempRef : Repository → string → World → result Ref * World;
  GetTree : Repository → option Ref → option TreeEntry → World
            → result (list TreeEntry) * World;
  GetTreeEntry : Repository → option Ref → option TreeEntry → string → World
                 → result TreeEntry * World;
  GetModule : Repository → option Ref → string → bool → World
              → (string * option error) * World;
  (* Ref *)
  Ref_Name : Ref → string;
  Ref_TreeTime : Ref → Time;
  (* TreeEntry *)
  Entry_Name : TreeEntry → string;
  Entry_Mode : TreeEntry → Z;
  Entry_Size : TreeEntry → Z;
  Entry_Target : TreeEntry → string;
  (* io.Closer, when the reader implements it *)
  Reader_Close : ReaderAt → option (World → World);
  (* time.Now and fuse.NewTimespec *)
  time_Now : World → Time;
  NewTimespec : Time → Timespec;
}.

(** How a call of a function of [hubfs.go] ends: it returns, or the Go
    run time panics (nil dereference, index or slice bounds out of range). *)
Inductive outcome (A : Type) : Type :=
| Ok (a : A)
| Panic.
Arguments Ok {A} a.
Arguments Panic {A}.

Section Hubfs.
Context `{P : Providers}.

(** [fuse.Stat_t]: the fields that [fuseStat] sets; the composite literal
    leaves every other field zero. *)
Record Stat_t : Type := mkStat {
  Mode : Z;
  Nlink : Z;
  Size : Z;
  Atim : Timespec;
  Mtim : Timespec;
  Ctim : Timespec;
  Birthtim : Timespec;
}.

Definition set_Size (stat : Stat_t) (size : Z) : Stat_t :=
  mkStat (Mode stat) (Nlink stat) size
         (Atim stat) (Mtim stat) (Ctim stat) (Birthtim stat).

(** *** Effects *)

(** What the file system does to the outside: the provider calls, with
    their arguments and results, and the calls of [fill]. *)
Inductive Event : Type :=
| EvOpenOwner (name : string) (r : result Owner)
| EvCloseOwner (o : option Owner)
| EvOpenRepository (o : option Owner) (name : string) (r : result Repository)
| EvCloseRepository (r : option Repository)
| EvGetOwners (r : result (list Owner))
| EvGetRepositories (o : option Owner) (r : result (list Repository))
| EvGetRefs (repo : Repository) (r : result (list Ref))
| EvGetRef (repo : Repository) (name : string) (r : result Ref)
| EvGetTempRef (repo : Repository) (name : string) (r : result Ref)
| EvGetTree (repo : Repository) (ref : option Ref) (entry : option TreeEntry)
            (r : result (list TreeEntry))
| EvGetTreeEntry (repo : Repository) (ref : option Ref)
                 (entry : option TreeEntry) (name : string)
                 (r : result TreeEntry)
| EvGetModule (repo : Repository) (ref : option Ref) (path : string)
              (recur : bool) (module : string) (err : option error)
| EvReaderClose (rd : ReaderAt)
| EvFill (name : string) (stat : Stat_t) (ofst : Z) (ok : bool).

(** A computation runs in a world and ends in a value or a panic, a new
    world and the events it caused, oldest first. *)
Definition M (A : Type) : Type := World → outcome A * World * list Event.

#[export] Instance M_ret : MRet M := λ A a w, (Ok a, w, []).

#[export] Instance M_bind : MBind M := λ A B f m w,
  match m w with
  | (Ok a, w1, t1) => let '(r, w2, t2) := f a w1 in (r, w2, t1 ++ t2)
  | (Panic, w1, t1) => (Panic, w1, t1)
  end.

Definition panic {A : Type} : M A := λ w, (Panic, w, []).

(** A method call or field access through an interface value or pointer
    that is nil. *)
Definition deref {A : Type} (o : option A) : M A :=
  match o with
  | Some a => mret a
  | None => panic
  end.

(** A provider call, recorded. *)
Definition call {A : Type} (f : World → A * World) (ev : A → Event) : M A :=
  λ w, let '(a, w') := f w in (Ok a, w', [ev a]).

Definition call_ (f : World → World) (ev : Event) : M unit :=
  λ w, (Ok tt, f w, [ev]).

Definition now : M Time := λ w, (Ok (time_Now w), w, []).

(** [lst[i] = v]: an index out of range panics. *)
Definition store (lst : list string) (i : nat) (v : string) : M (list string) :=
  if decide (i < length lst)%nat then mret (<[i:=v]> lst) else panic.

(** [lst[n:]]: slice bounds out of range panic. *)
Definition slice_from {A : Type} (n : nat) (lst : list A) : M (list A) :=
  if decide (n ≤ length lst)%nat then mret (drop n lst) else panic.

(** *** Data *)

Record obstack : Type := mkObstack {
  owner : option Owner;
  repository : option Repository;
  ref : option Ref;
  entry : option TreeEntry;
  reader : option ReaderAt;
}.

Definition set_owner (obs : obstack) (o : option Owner) : obstack :=
  mkObstack o (repository obs) (ref obs) (entry obs) (reader obs).
Definition set_repository (obs : obstack) (r : option Repository) : obstack :=
  mkObstack (owner obs) r (ref obs) (entry obs) (reader obs).
Definition set_ref (obs : obstack) (r : option Ref) : obstack :=
  mkObstack (owner obs) (repository obs) r (entry obs) (reader obs).
Definition set_entry (obs : obstack) (e : option TreeEntry) : obstack :=
  mkObstack (owner obs) (repository obs) (ref obs) e (reader obs).

(** [&obstack{}] *)
Definition obstack_zero : obstack := mkObstack None None None None None.

(** The file system.  [client] is the [Providers] instance; [lock] guards
    [fh] and [openmap], and the model runs each locked region in one
    step.  [openmap] maps a handle to a pointer, which may be nil. *)
Record hubfs : Type := mkHubfs {
  prefix : string;
  fh : Z;
  openmap : gmap Z (option obstack);
}.

(** [Config.Client] is the [Providers] instance. *)
Record Config : Type := mkConfig {
  Prefix : string;
  Caseins : bool;
  Overlay : bool;
}.

Definition new (c : Config) : hubfs :=
  mkHubfs (Prefix c) 0 ∅.

(** *** [fuseErrc], [fuseStat] *)

Definition fuseErrc (err : option error) : Z :=
  match err with
  | Some ErrNotFound => - fuse.ENOENT
  | _ => - fuse.EIO
  end.

Definition fuseStat (mode : Z) (size : Z) (time : Time) : Stat_t :=
  let sw := Z.land mode fuse.S_IFMT in
  let mode :=
    if sw =? fuse.S_IFDIR then Z.lor fuse.S_IFDIR o0755
    else if (sw =? fuse.S_IFLNK) || (sw =? o0160000) then
      Z.lor fuse.S_IFLNK o0777
    else
      let mode := Z.lor fuse.S_IFREG o0644 in
      if negb (0 =? Z.land mode o0400) then Z.lor fuse.S_IFREG o0755
      else mode in
  let ts := NewTimespec time in
  mkStat mode 1 size ts ts ts ts.

(** *** [openex], [open], [release] *)

Definition is_dot (r : ascii) : bool := Ascii.eqb "."%char r.

(** The body of the [switch] in the loop of [openex], for the token [c]
    at index [i]: the new obstack, [err] and [lst]. *)
Definition openex_step (norm : bool) (i : nat) (c : string)
           (obs : obstack) (lst : list string)
  : M (obstack * option error * list string) :=
  match i with
  | 0%nat =>
      if negb (-1 =? strings.IndexFunc c is_dot) || String.eqb "HEAD" c then
        mret (set_owner obs None, Some ErrNotFound, lst)
      else
        r ← call (OpenOwner c) (EvOpenOwner c);
        match r with
        | Val o =>
            lst ← (if norm then store lst i (Owner_Name o) else mret lst);
            mret (set_owner obs (Some o), None, lst)
        | Err e => mret (set_owner obs None, Some e, lst)
        end
  | 1%nat =>
      r ← call (OpenRepository (owner obs) c) (EvOpenRepository (owner obs) c);
      match r with
      | Val repo =>
          lst ← (if norm then store lst i (Repository_Name repo) else mret lst);
          mret (set_repository obs (Some repo), None, lst)
      | Err e => mret (set_repository obs None, Some e, lst)
      end
  | 2%nat =>
      let c := Decode c in
      repo ← deref (repository obs);
      r ← call (GetRef repo ("refs/heads/" +:+ c))
               (EvGetRef repo ("refs/heads/" +:+ c));
      r ← match r with
           | Err ErrNotFound =>
               r ← call (GetRef repo ("refs/tags/" +:+ c))
                        (EvGetRef repo ("refs/tags/" +:+ c));
               match r with
               | Err ErrNotFound =>
                   call (GetTempRef repo c) (EvGetTempRef repo c)
               | _ => mret r
               end
           | _ => mret r
           end;
      match r with
      | Val rf =>
          lst ← (if norm then store lst i (Encode (Ref_Name rf))
                 else mret lst);
          mret (set_ref obs (Some rf), None, lst)
      | Err e => mret (set_ref obs None, Some e, lst)
      end
  | _ =>
      repo ← deref (repository obs);
      r ← call (GetTreeEntry repo (ref obs) (entry obs) c)
               (EvGetTreeEntry repo (ref obs) (entry obs) c);
      match r with
      | Val e =>
          lst ← (if norm then store lst i (Entry_Name e) else mret lst);
          mret (set_entry obs (Some e), None, lst)
      | Err e => mret (set_entry obs None, Some e, lst)
      end
  end.

Definition release (obs : obstack) : M unit :=
  _ ← match repository obs with
       | Some _ => call_ (CloseRepository (repository obs))
                         (EvCloseRepository (repository obs))
       | None => mret tt
       end;
  match owner obs with
  | Some _ => call_ (CloseOwner (owner obs)) (EvCloseOwner (owner obs))
  | None => mret tt
  end.

(** [for i, c := range lst]: the tokens [cs] still to visit, from index
    [i] on.  The loop writes [lst[i]] only after it has read it, so the
    tokens it visits are those of the list as [split] returned it. *)
Fixpoint openex_loop (norm : bool) (i : nat) (cs : list string)
         (obs : obstack) (lst : list string)
  : M (Z * option obstack * list string) :=
  match cs with
  | [] => mret (0, Some obs, lst)
  | c :: cs' =>
      '(obs, err, lst) ← openex_step norm i c obs lst;
      match err with
      | Some _ =>
          _ ← release obs;
          mret (fuseErrc err, None, lst)
      | None => openex_loop norm (S i) cs' obs lst
      end
  end.

Definition openex (fs : hubfs) (path : string) (norm : bool)
  : M (Z * option obstack * list string) :=
  let lst := split (pathutil.Join [prefix fs; path]) in
  openex_loop norm 0 lst obstack_zero lst.

Definition open (fs : hubfs) (path : string) : M (Z * option obstack) :=
  '(errc, res, _) ← openex fs path false;
  mret (errc, res).

(** *** [getattr] *)

(** The stat is written through the pointer and never read: the model
    returns it next to the target. *)
Definition getattr (fs : hubfs) (obs : obstack) (entry : option TreeEntry)
           (path : string) : M (Stat_t * string) :=
  match entry with
  | Some entry =>
      let mode := Entry_Mode entry in
      rf ← deref (ref obs);
      let stat := fuseStat mode (Entry_Size entry) (Ref_TreeTime rf) in
      let sw := Z.land mode fuse.S_IFMT in
      if sw =? fuse.S_IFLNK then
        let target := Entry_Target entry in
        mret (set_Size stat (Z.of_nat (String.length target)), target)
      else if sw =? o0160000 then
        let target := Entry_Target entry in
        comps ← slice_from 3 (split (pathutil.Join [prefix fs; path]));
        let path := strings.Join comps "/" in
        repo ← deref (repository obs);
        '(module, err) ← call (GetModule repo (ref obs) path true)
                              (λ r, EvGetModule repo (ref obs) path true r.1 r.2);
        let module :=
          strings.TrimPrefix module (strings.TrimSuffix (prefix fs) "/") in
        let target :=
          if negb (String.eqb "" module)
          then module +:+ "/" +:+ Entry_Target entry
          else target in
        mret (set_Size stat (Z.of_nat (String.length target)), target)
      else
        mret (stat, "")
  | None =>
      t ← now;
      mret (fuseStat fuse.S_IFDIR 0 t, "")
  end.

(** *** The operations of the file system *)

Definition Readpath (fs : hubfs) (path : string) : M (Z * string) :=
  '(errc, obs, normpath) ← openex fs path true;
  _ ← (if 0 =? errc then obs ← deref obs; release obs else mret tt);
  let errc := 0 in
  let target := "/" +:+ pathutil.Join normpath in
  let target :=
    strings.TrimPrefix target (strings.TrimSuffix (prefix fs) "/") in
  mret (errc, target).

(** [fs.fh++] on a [uint64] *)
Definition fh_next (fh : Z) : Z := (fh + 1) mod 2 ^ 64.

(** Returns [errc], [fh] and the file system with its handle table
    updated. *)
Definition Opendir (fs : hubfs) (path : string) : M (Z * Z * hubfs) :=
  '(errc, obs) ← open fs path;
  if negb (0 =? errc) then mret (errc, 0, fs)
  else
    let h := fh fs in
    mret (errc, h,
          mkHubfs (prefix fs) (fh_next (fh fs)) (<[h := obs]> (openmap fs))).

Definition Open (fs : hubfs) (path : string) (flags : Z)
  : M (Z * Z * hubfs) :=
  '(errc, obs) ← open fs path;
  if negb (0 =? errc) then mret (errc, 0, fs)
  else
    let h := fh fs in
    mret (errc, h,
          mkHubfs (prefix fs) (fh_next (fh fs)) (<[h := obs]> (openmap fs))).

(** The callback of [Readdir]; it keeps its buffer in the world. *)
Definition filler : Type := string → Stat_t → Z → World → bool * World.

Definition call_fill (fill : filler) (name : string) (stat : Stat_t)
           (ofst : Z) : M bool :=
  call (fill name stat ofst) (EvFill name stat ofst).

(** The loop over the entries of a tree. *)
Fixpoint readdir_tree (fs : hubfs) (obs : obstack) (path : string)
         (fill : filler) (lst : list TreeEntry) : M unit :=
  match lst with
  | [] => mret tt
  | elm :: lst =>
      let n := Entry_Name elm in
      '(stat, _) ← getattr fs obs (Some elm) (pathutil.Join [path; n]);
      ok ← call_fill fill n stat 0;
      if negb ok then mret tt
      else readdir_tree fs obs path fill lst
  end.

(** The loop over the refs of a repository. *)
Fixpoint readdir_refs (fill : filler) (stat : Stat_t) (lst : list Ref)
  : M unit :=
  match lst with
  | [] => mret tt
  | elm :: lst =>
      let r := Ref_Name elm in
      let n := strings.TrimPrefix r "refs/heads/" in
      if String.eqb r n then readdir_refs fill stat lst
      else
        let n := strings.ReplaceAll n "/" " " in
        ok ← call_fill fill n stat 0;
        if negb ok then mret tt
        else readdir_refs fill stat lst
  end.

(** The loops over the repositories of an owner and over the owners. *)
Fixpoint readdir_names {A : Type} (Name : A → string) (fill : filler)
         (stat : Stat_t) (lst : list A) : M unit :=
  match lst with
  | [] => mret tt
  | elm :: lst =>
      ok ← call_fill fill (Name elm) stat 0;
      if negb ok then mret tt
      else readdir_names Name fill stat lst
  end.

Definition Readdir (fs : hubfs) (path : string) (fill : filler) (ofst : Z)
           (h : Z) : M Z :=
  match openmap fs !! h with
  | None => mret (- fuse.ENOENT)
  | Some obs =>
      obs ← deref obs;
      stat ← match entry obs with
              | Some _ =>
                  rf ← deref (ref obs);
                  mret (fuseStat fuse.S_IFDIR 0 (Ref_TreeTime rf))
              | None =>
                  t ← now;
                  mret (fuseStat fuse.S_IFDIR 0 t)
              end;
      _ ← call_fill fill "." stat 0;
      _ ← call_fill fill ".." stat 0;
      _ ← match ref obs with
           | Some _ =>
               repo ← deref (repository obs);
               r ← call (GetTree repo (ref obs) (entry obs))
                        (EvGetTree repo (ref obs) (entry obs));
               match r with
               | Val lst => readdir_tree fs obs path fill lst
               | Err _ => mret tt
               end
           | None =>
               match repository obs with
               | Some repo =>
                   r ← call (GetRefs repo) (EvGetRefs repo);
                   match r with
                   | Val lst => readdir_refs fill stat lst
                   | Err _ => mret tt
                   end
               | None =>
                   match owner obs with
                   | Some _ =>
                       r ← call (GetRepositories (owner obs))
                                (EvGetRepositories (owner obs));
                       match r with
                       | Val lst => readdir_names Repository_Name fill stat lst
                       | Err _ => mret tt
                       end
                   | None =>
                       r ← call GetOwners EvGetOwners;
                       match r with
                       | Val lst => readdir_names Owner_Name fill stat lst
                       | Err _ => mret tt
                       end
                   end
               end
           end;
      mret 0
  end.

(** Returns [errc] and the file system with its handle table updated. *)
Definition Releasedir (fs : hubfs) (path : string) (h : Z) : M (Z * hubfs) :=
  match openmap fs !! h with
  | None => mret (- fuse.ENOENT, fs)
  | Some obs =>
      let fs := mkHubfs (prefix fs) (fh fs) (delete h (openmap fs)) in
      obs ← deref obs;
      _ ← release obs;
      mret (0, fs)
  end.

Definition Release (fs : hubfs) (path : string) (h : Z) : M (Z * hubfs) :=
  match openmap fs !! h with
  | None => mret (- fuse.ENOENT, fs)
  | Some obs =>
      let fs := mkHubfs (prefix fs) (fh fs) (delete h (openmap fs)) in
      obs ← deref obs;
      _ ← match reader obs with
           | Some rd =>
               match Reader_Close rd with
               | Some close => call_ close (EvReaderClose rd)
               | None => mret tt
               end
           | None => mret tt
           end;
      _ ← release obs;
      mret (0, fs)
  end.

(** *** A process: the requests of the host, served one after the other *)

Inductive request : Type :=
| ReqReadpath (path : string)
| ReqOpendir (path : string)
| ReqReaddir (path : string) (fill : filler) (ofst : Z) (h : Z)
| ReqReleasedir (path : string) (h : Z)
| ReqOpen (path : string) (flags : Z)
| ReqRelease (path : string) (h : Z).

(** Serves one request: the file system after it and the handle it
    issued, if any. *)
Definition serve (fs : hubfs) (rq : request) : M (hubfs * option Z) :=
  match rq with
  | ReqReadpath path =>
      _ ← Readpath fs path; mret (fs, None)
  | ReqOpendir path =>
      '(errc, h, fs) ← Opendir fs path;
      mret (fs, if 0 =? errc then Some h else None)
  | ReqReaddir path fill ofst h =>
      _ ← Readdir fs path fill ofst h; mret (fs, None)
  | ReqReleasedir path h =>
      '(_, fs) ← Releasedir fs path h; mret (fs, None)
  | ReqOpen path flags =>
      '(errc, h, fs) ← Open fs path flags;
      mret (fs, if 0 =? errc then Some h else None)
  | ReqRelease path h =>
      '(_, fs) ← Release fs path h; mret (fs, None)
  end.

(** The handles issued while serving [rqs], in the order of issue, up to
    the end of the requests or to the panic that ends the process. *)
Fixpoint issued (fs : hubfs) (rqs : list request) (w : World) : list Z :=
  match rqs with
  | [] => []
  | rq :: rqs =>
      match serve fs rq w with
      | (Ok (fs, h), w, _) => option_list h ++ issued fs rqs w
      | (Panic, _, _) => []
      end
  end.

(** *** Reading a trace *)

(** The owners and repositories that the calls of a trace acquired, and
    those that its calls gave back, in the order of the calls. *)
Definition opened_owners (tr : list Event) : list (option Owner) :=
  flat_map (λ ev, match ev with
                  | EvOpenOwner _ (Val o) => [Some o]
                  | _ => []
                  end) tr.

Definition closed_owners (tr : list Event) : list (option Owner) :=
  flat_map (λ ev, match ev with
                  | EvCloseOwner o => [o]
                  | _ => []
                  end) tr.

Definition opened_repositories (tr : list Event) : list (option Repository) :=
  flat_map (λ ev, match ev with
                  | EvOpenRepository _ _ (Val r) => [Some r]
                  | _ => []
                  end) tr.

Definition closed_repositories (tr : list Event) : list (option Repository) :=
  flat_map (λ ev, match ev with
                  | EvCloseRepository r => [r]
                  | _ => []
                  end) tr.

(** The owner and the repository that an obstack holds. *)
Definition held_owner (obs : obstack) : list (option Owner) :=
  match owner obs with
  | Some o => [Some o]
  | None => []
  end.

Definition held_repository (obs : obstack) : list (option Repository) :=
  match repository obs with
  | Some r => [Some r]
  | None => []
  end.

(** The authoritative names of what the resolving calls of a trace
    found: owner name, repository name, encoded ref name, entry name. *)
Definition resolved_names (tr : list Event) : list string :=
  flat_map (λ ev, match ev with
                  | EvOpenOwner _ (Val o) => [Owner_Name o]
                  | EvOpenRepository _ _ (Val r) => [Repository_Name r]
                  | EvGetRef _ _ (Val rf) => [Encode (Ref_Name rf)]
                  | EvGetTempRef _ _ (Val rf) => [Encode (Ref_Name rf)]
                  | EvGetTreeEntry _ _ _ _ (Val e) => [Entry_Name e]
                  | _ => []
                  end) tr.

(** The names passed to [fill], in the order of the calls. *)
Definition filled (tr : list Event) : list string :=
  flat_map (λ ev, match ev with
                  | EvFill name _ _ _ => [name]
                  | _ => []
                  end) tr.

(** No call of [fill] in the trace answered false. *)
Definition fill_accepts (tr : list Event) : Prop :=
  ∀ name stat ofst ok, In (EvFill name stat ofst ok) tr → ok = true.

(** An enumeration call of [Readdir] that returned an error. *)
Definition enum_failed (ev : Event) : bool :=
  match ev with
  | EvGetTree _ _ _ (Err _) => true
  | EvGetRefs _ (Err _) => true
  | EvGetRepositories _ (Err _) => true
  | EvGetOwners (Err _) => true
  | _ => false
  end.

(** *** Obstacks by depth *)

(** An obstack populated exactly to depth [n]: the owner from depth 1,
    the repository from depth 2, the ref from depth 3, a tree entry from
    depth 4 on. *)
Definition populated (n : nat) (obs : obstack) : Prop :=
  (is_Some (owner obs) ↔ (1 ≤ n)%nat) ∧
  (is_Some (repository obs) ↔ (2 ≤ n)%nat) ∧
  (is_Some (ref obs) ↔ (3 ≤ n)%nat) ∧
  (is_Some (entry obs) ↔ (4 ≤ n)%nat).

(** *** The behaviour as the specification words it *)


(** The listing of a repository: the refs whose full name starts with
    [refs/heads/], in the order of the provider, each with that prefix
    stripped and ['/'] encoded as a space. *)
Definition heads_listing (refs : list Ref) : list string :=
  map (λ r, strings.ReplaceAll (strings.TrimPrefix r "refs/heads/") "/" " ")
      (List.filter (λ r, strings.HasPrefix r "refs/heads/")
                   (map Ref_Name refs)).

End Hubfs.

(** ** A small provider, for concrete runs

    One owner [Alice] with one repository [Project]; lookups ignore case,
    as a hosting service does.  The repository has two branches and a tag,
    and a tree with a regular file and a submodule.  While the service is
    not [online] every call that reaches it fails with an I/O error.  The
    directory buffer of the host has [room] for that many more names. *)
Module demo.

Record world : Type := mkWorld { online : bool; room : nat }.

Record tree_entry : Type := mkEntry {
  te_name : string;
  te_mode : Z;
  te_target : string;
}.

Definition refs : list string :=
  ["refs/heads/main"; "refs/tags/v1.0"; "refs/heads/feature/x"].

Definition tree : list tree_entry :=
  [mkEntry "README.md" (Z.lor fuse.S_IFREG o0644) "";
   mkEntry "sub" o0160000 "../elsewhere"].

Definition answer {A : Type} (w : world) (r : result A) : result A * world :=
  (if online w then r else Err (ErrOther "offline"), w).

Definition find {A : Type} (name : A → string) (n : string) (l : list A)
  : result A :=
  match List.find (λ x, String.eqb (name x) n) l with
  | Some x => Val x
  | None => Err ErrNotFound
  end.

Definition providers : Providers := {|
  World := world;
  Owner := string;
  Repository := string;
  Ref := string;
  TreeEntry := tree_entry;
  ReaderAt := unit;
  Time := Z;
  Timespec := Z;
  OpenOwner name w :=
    answer w (if String.eqb name "alice" || String.eqb name "Alice"
              then Val "Alice" else Err ErrNotFound);
  CloseOwner _ w := w;
  OpenRepository _ name w :=
    answer w (if String.eqb name "project" || String.eqb name "Project"
              then Val "Project" else Err ErrNotFound);
  CloseRepository _ w := w;
  GetOwners w := answer w (Val ["Alice"]);
  GetRepositories _ w := answer w (Val ["Project"]);
  Owner_Name o := o;
  Repository_Name r := r;
  GetRefs _ w := answer w (Val refs);
  GetRef _ name w := answer w (find id name refs);
  GetTempRef _ name w := answer w (Err ErrNotFound);
  GetTree _ _ _ w := answer w (Val tree);
  GetTreeEntry _ _ _ name w := answer w (find te_name name tree);
  GetModule _ _ _ _ w := (("", Some ErrNotFound), w);
  Ref_Name r := r;
  Ref_TreeTime _ := 1600000000;
  Entry_Name := te_name;
  Entry_Mode := te_mode;
  Entry_Size _ := 0;
  Entry_Target := te_target;
  Reader_Close _ := None;
  time_Now _ := 1700000000;
  NewTimespec t := t;
|}.

(** The host's [fill]: takes the name while there is room. *)
Definition fill : @filler providers :=
  λ name stat ofst w,
    match room w with
    | O => (false, w)
    | S n => (true, mkWorld (online w) n)
    end.

(** A file system mounted at the root. *)
Definition fs0 : @hubfs providers := new (mkConfig "/" false false).

(** The file system after a first [Opendir] of [path]. *)
Definition opened (path : string) (w : world) : @hubfs providers :=
  match Opendir (P := providers) fs0 path w with
  | (Ok (_, _, fs), _, _) => fs
  | _ => fs0
  end.

(** The obstack of [/alice/project]. *)
Definition project : @obstack providers :=
  mkObstack (P := providers) (Some "Alice") (Some "Project") None None None.

End demo.

(** ** [Getattr], [Readlink] and whole runs *)

Section Lookups.
Context `{P : Providers}.

(** The body of [Getattr] from the label [retry] on.  [more] is the number
    of retries still allowed, [16 - retries]: the test [16 > retries] is
    [more] not being zero, and [retries++] takes one off.  The stat is
    written through its pointer by [getattr] only: when [open] fails it is
    as it was. *)
Fixpoint Getattr_retry (more : nat) (fs : hubfs) (resolve : bool)
         (path : string) (stat : Stat_t) : M (Z * Stat_t) :=
  '(errc, obs) ← open fs path;
  if negb (0 =? errc) then mret (errc, stat)
  else
    obs ← deref obs;
    '(stat, target) ← getattr fs obs (entry obs) path;
    _ ← release obs;
    if resolve && negb (String.eqb "" target) then
      match more with
      | S more =>
          path ← match target with
                  | String c _ =>
                      if Ascii.eqb "/"%char c then mret target
                      else mret (pathutil.Join [path; ".."; target])
                  | EmptyString => panic  (* target[0], index out of range *)
                  end;
          Getattr_retry more fs resolve path stat
      | O => mret (errc, stat)
      end
    else mret (errc, stat).

(** [fh] is not used. *)
Definition Getattr (fs : hubfs) (path : string) (stat : Stat_t) (h : Z)
  : M (Z * Stat_t) :=
  let resolve := strings.HasSuffix path "/." in
  Getattr_retry 16 fs resolve path stat.

Definition Readlink (fs : hubfs) (path : string) : M (Z * string) :=
  '(errc, obs) ← open fs path;
  if negb (0 =? errc) then mret (errc, "")
  else
    obs ← deref obs;
    '(_, target) ← getattr fs obs (entry obs) path;
    let errc := if String.eqb "" target then - fuse.EINVAL else errc in
    _ ← release obs;
    mret (errc, target).

(** The file system after the requests [rqs], when no request panics. *)
Fixpoint run (fs : hubfs) (rqs : list request) (w : World)
  : outcome hubfs * World :=
  match rqs with
  | [] => (Ok fs, w)
  | rq :: rqs =>
      match serve fs rq w with
      | (Ok (fs, _), w, _) => run fs rqs w
      | (Panic, w, _) => (Panic, w)
      end
  end.

(** A symlink or a submodule: the classes for which [getattr] reads a
    target. *)
Definition link_class (mode : Z) : Prop :=
  Z.land mode fuse.S_IFMT = fuse.S_IFLNK ∨
  Z.land mode fuse.S_IFMT = o0160000.

(** The errnos of a resolution. *)
Definition resolve_errno (errc : Z) : Prop :=
  errc = 0 ∨ errc = - fuse.ENOENT ∨ errc = - fuse.EIO.

(** A handle table as a process builds it: every handle is below the
    counter and bound to an obstack populated to some depth. *)
Definition table_ok (fs : hubfs) : Prop :=
  0 ≤ fh fs < 2 ^ 64 ∧
  ∀ (k : Z) (o : option obstack),
    openmap fs !! k = Some o →
    0 ≤ k < fh fs ∧ ∃ obs n, o = Some obs ∧ populated n obs.

End Lookups.


(** A token that names something: not empty, not [.] or [..], and without
    a separator. *)
Definition name_token (e : string) : Prop :=
  e ≠ "" ∧ e ≠ "." ∧ e ≠ ".." ∧ has_byte "/" e = false.

(** A git mode that is a submodule. *)
Definition submodule_class (mode : Z) : Prop :=
  Z.land mode fuse.S_IFMT = o0160000.

(** ** [Read] *)

(** What [Read] needs of the provider beyond [Providers]:
    [Repository.GetBlobReader] and [io.ReaderAt.ReadAt].  The buffer is a
    list of bytes; [ReadAt] answers the count, the buffer as it has filled
    it, and the error.  [GetBlobReader] answers a reader, which may be nil,
    and an error. *)
Class BlobProviders `{P : Providers} : Type := {
  GetBlobReader : Repository → option TreeEntry → World
                  → (option ReaderAt * option error) * World;
  ReadAt : ReaderAt → list ascii → Z → World
           → (Z * list ascii * option error) * World;
}.

(** The sentinel [io.EOF], whose message is ["EOF"]; no other error of a
    provider has this message. *)
Definition io_EOF : error := ErrOther "EOF".

Definition is_EOF (err : error) : bool :=
  match err with
  | ErrOther msg => String.eqb msg "EOF"
  | ErrNotFound => false
  end.

Section Reading.
Context `{B : BlobProviders}.

(** The calls of [Read] that leave the file system. *)
Inductive BlobEvent : Type :=
| EvGetBlobReader (repo : Repository) (entry : option TreeEntry)
                  (rd : option ReaderAt) (err : option error)
| EvReadAt (rd : ReaderAt) (ofst : Z) (n : Z) (err : option error)
| EvLoserClose (rd : ReaderAt).

Definition set_reader (obs : obstack) (rd : option ReaderAt) : obstack :=
  mkObstack (owner obs) (repository obs) (ref obs) (entry obs) rd.

(** [n, err := reader.ReadAt(buff, ofst)] and what follows it. *)
Definition read_at (fs : hubfs) (rd : ReaderAt) (buff : list ascii) (ofst : Z)
           (w : World) (tr : list BlobEvent)
  : outcome (Z * list ascii * hubfs) * World * list BlobEvent :=
  let '(n, buff, err, w) := ReadAt rd buff ofst w in
  let tr := tr ++ [EvReadAt rd ofst n err] in
  match err with
  | Some e =>
      if negb (is_EOF e) then (Ok (fuseErrc err, buff, fs), w, tr)
      else (Ok (n, buff, fs), w, tr)
  | None => (Ok (n, buff, fs), w, tr)
  end.

(** [Read], called while no other call of the file system runs: each
    region under the lock is one step, and nothing happens between the
    steps.  [obs] is the pointer found in the table; writing [obs.reader]
    changes the obstack that the table binds to [h].  Returns [n], the
    buffer and the file system. *)
Definition Read (fs : hubfs) (path : string) (buff : list ascii) (ofst : Z)
           (h : Z) (w : World)
  : outcome (Z * list ascii * hubfs) * World * list BlobEvent :=
  match openmap fs !! h with
  | None => (Ok (- fuse.ENOENT, buff, fs), w, [])
  | Some None => (Panic, w, [])  (* obs.reader, obs being nil *)
  | Some (Some obs) =>
      match reader obs with
      | Some rd => read_at fs rd buff ofst w []
      | None =>
          match repository obs with
          | None => (Panic, w, [])  (* obs.repository.GetBlobReader *)
          | Some repo =>
              (* reader, _ = obs.repository.GetBlobReader(obs.entry) *)
              let '(r, err, w) := GetBlobReader repo (entry obs) w in
              let tr := [EvGetBlobReader repo (entry obs) r err] in
              match r with
              | None => (Ok (- fuse.EIO, buff, fs), w, tr)
              | Some rd =>
                  (* fs.lock.Lock(): obs.reader is read again *)
                  match reader obs with
                  | None =>
                      let fs :=
                        mkHubfs (prefix fs) (fh fs)
                                (<[h := Some (set_reader obs (Some rd))]>
                                   (openmap fs)) in
                      read_at fs rd buff ofst w tr
                  | Some rd0 =>
                      (* closer = reader.(io.Closer) *)
                      match Reader_Close rd with
                      | None => (Panic, w, tr)
                      | Some close =>
                          read_at fs rd0 buff ofst (close w)
                                  (tr ++ [EvLoserClose rd])
                      end
                  end
              end
          end
      end
  end.

End Reading.

(** ** A provider with blobs, for concrete reads

    The small provider again, with readers: the reader of an entry is its
    content, and it can be closed.  [ReadAt] copies what there is from the
    offset on into the front of the buffer and answers [io.EOF] when that
    does not fill the buffer. *)
Module blobs.

Definition providers : Providers := {|
  World := demo.world;
  Owner := string;
  Repository := string;
  Ref := string;
  TreeEntry := demo.tree_entry;
  ReaderAt := string;
  Time := Z;
  Timespec := Z;
  OpenOwner := @OpenOwner demo.providers;
  CloseOwner := @CloseOwner demo.providers;
  OpenRepository := @OpenRepository demo.providers;
  CloseRepository := @CloseRepository demo.providers;
  GetOwners := @GetOwners demo.providers;
  GetRepositories := @GetRepositories demo.providers;
  Owner_Name o := o;
  Repository_Name r := r;
  GetRefs := @GetRefs demo.providers;
  GetRef := @GetRef demo.providers;
  GetTempRef := @GetTempRef demo.providers;
  GetTree := @GetTree demo.providers;
  GetTreeEntry := @GetTreeEntry demo.providers;
  GetModule := @GetModule demo.providers;
  Ref_Name r := r;
  Ref_TreeTime _ := 1600000000;
  Entry_Name := demo.te_name;
  Entry_Mode := demo.te_mode;
  Entry_Size _ := 0;
  Entry_Target := demo.te_target;
  Reader_Close _ := Some (λ w, w);
  time_Now _ := 1700000000;
  NewTimespec t := t;
|}.

Definition content (e : demo.tree_entry) : string :=
  if String.eqb (demo.te_name e) "README.md" then "hello" else "".

Definition read_at (data : string) (buff : list ascii) (ofst : Z)
  : Z * list ascii * option error :=
  if ofst <? 0 then (0, buff, Some (ErrOther "negative offset"))
  else
    let got := take (length buff)
                    (drop (Z.to_nat ofst) (list_ascii_of_string data)) in
    (Z.of_nat (length got), got ++ drop (length got) buff,
     if (length got <? length buff)%nat then Some io_EOF else None).

Definition get_blob_reader (entry : option demo.tree_entry) (w : demo.world)
  : (option string * option error) * demo.world :=
  (match entry with
   | Some e =>
       if demo.online w then (Some (content e), None)
       else (None, Some (ErrOther "offline"))
   | None => (None, Some ErrNotFound)
   end, w).

Definition blob_providers : @BlobProviders providers :=
  @Build_BlobProviders providers
    (λ _, get_blob_reader)
    (λ data buff ofst w, (read_at data buff ofst, w)).

Definition readme : demo.tree_entry :=
  demo.mkEntry "README.md" (Z.lor fuse.S_IFREG o0644) "".

(** The obstack of [/alice/project/main/README.md]. *)
Definition readme_obs : @obstack providers :=
  mkObstack (P := providers) (Some "Alice") (Some "Project")
            (Some "refs/heads/main") (Some readme) None.

(** The file system after a first [Open] of that path. *)
Definition opened_readme : @hubfs providers :=
  mkHubfs (P := providers) "/" 1 {[ 0 := Some readme_obs ]}.

End blobs.

(** * Properties *)

(** ** Tactics *)

(** Uses what [populated_inv] says about the slots of an obstack. *)
Ltac pop_subst :=
  repeat match goal with
  | H : ?x = None ↔ ?Q |- _ =>
      first [ assert (x = None) by (apply H; lia); clear H; subst x
            | assert (x ≠ None) by (let E := fresh in intros E; apply H in E; lia);
              clear H; destruct x; [|congruence] ]
  end.

(** Runs one step of the walk. *)
Ltac run_step :=
  unfold openex_step, mbind, M_bind, mret, M_ret, call, call_, deref, panic, store;
  cbn -[strings.IndexFunc String.eqb Decode Encode String.append];
  repeat match goal with
  | |- context [decide (?a < ?b)%nat] =>
      destruct (decide (a < b)%nat); [|lia];
      cbn -[strings.IndexFunc String.eqb Decode Encode String.append]
  end.

(** Settles a goal [populated n obs] on an explicit obstack. *)
Ltac solve_pop :=
  unfold populated; cbn [owner repository ref entry set_owner set_repository set_ref set_entry];
  rewrite !is_Some_alt; intuition lia.

(** Reads the trace of a step that has been run. *)
Ltac finish_step :=
  cbn [closed_owners closed_repositories opened_owners opened_repositories
       resolved_names flat_map app held_owner held_repository
       owner repository ref entry set_owner set_repository set_ref set_entry];
  repeat match goal with
  | |- _ ∧ _ => split
  | |- ∃ n, [?x] = [n] ∧ _ => exists x; split; [reflexivity|]
  | |- populated _ _ => solve_pop
  | |- _ => reflexivity
  end.

(** Cases on the answer of the provider call in the goal. *)
Ltac destruct_call :=
  match goal with
  | |- context [OpenOwner ?c ?w] => destruct (OpenOwner c w) as [[?|?] ?]
  | |- context [OpenRepository ?o ?c ?w] =>
      destruct (OpenRepository o c w) as [[?|?] ?]
  | |- context [GetRef ?r ?n ?w] => destruct (GetRef r n w) as [[?|[|?]] ?]
  | |- context [GetTempRef ?r ?n ?w] => destruct (GetTempRef r n w) as [[?|?] ?]
  | |- context [GetTreeEntry ?r ?f ?e ?n ?w] =>
      destruct (GetTreeEntry r f e n w) as [[?|?] ?]
  end.

(** Splits conjunctions, and nothing else. *)
Ltac conjs := repeat match goal with |- _ ∧ _ => split end.

(** Runs [Readdir] up to the next call that leaves the file system. *)
Ltac run_readdir :=
  unfold deref, now, call_fill, call, panic, mbind, M_bind, mret, M_ret;
  cbn -[fuseStat heads_listing readdir_refs readdir_tree readdir_names].

(** Peels the events at the head of a trace off an [Exists]. *)
Ltac enum_inv H :=
  repeat (apply Exists_cons in H; destruct H as [H|H]; [discriminate H|]);
  exact H.

(** ** The model on known inputs *)

(** [path.Clean] on rows of the table in Go's documentation and tests. *)
Example Clean_table :
  map pathutil.Clean
      [""; "abc"; "abc/def"; "."; ".."; "../../abc"; "/abc"; "/"; "abc/";
       "a/b/c/"; "./"; "/abc/"; "abc//def//ghi"; "//abc"; "abc/./def";
       "abc/def/ghi/../jkl"; "abc/def/../.."; "/abc/def/../..";
       "abc/def/../../.."; "/abc/def/../../..";
       "abc/def/../../../ghi/jkl/../../../mno"; "abc/../../././../def"]
  = ["."; "abc"; "abc/def"; "."; ".."; "../../abc"; "/abc"; "/"; "abc";
     "a/b/c"; "."; "/abc"; "abc/def/ghi"; "/abc"; "abc/def";
     "abc/def/jkl"; "."; "/";
     ".."; "/";
     "../../mno"; "../../def"].
Proof. vm_compute. reflexivity. Qed.

Example split_alone :
  split "/" = [] ∧ split "/a/b" = ["a"; "b"] ∧ split "/a/" = ["a"; ""].
Proof. repeat split. Qed.

(** The [Readpath] scenarios of the specification. *)
Example Readpath_main :
  (Readpath (P := demo.providers) demo.fs0 "/alice/Project/main"
            (demo.mkWorld true 0)).1.1
  = Ok (0, "/Alice/Project/main").
Proof. vm_compute. reflexivity. Qed.

Example Readpath_feature_x :
  (Readpath (P := demo.providers) demo.fs0 "/alice/project/feature x"
            (demo.mkWorld true 0)).1.1
  = Ok (0, "/Alice/Project/feature x").
Proof. vm_compute. reflexivity. Qed.

(** A resolution that fails partway: the ref is not found. *)
Example Readpath_partial :
  (Readpath (P := demo.providers) demo.fs0 "/alice/project/nope/y"
            (demo.mkWorld true 0)).1.1
  = Ok (0, "/Alice/Project/nope/y").
Proof. vm_compute. reflexivity. Qed.

(** ** Strings and paths *)

Section StringFacts.

Lemma prefix_byte (b a : ascii) (s : string) :
  String.prefix (String b "") (String a s) = Ascii.eqb b a.
Proof.
  change (String.prefix (String b "") (String a s))
    with (if ascii_dec b a then String.prefix "" s else false).
  destruct (ascii_dec b a) as [<-|Hne].
  - rewrite Ascii.eqb_refl. destruct s; reflexivity.
  - symmetry. apply Ascii.eqb_neq. exact Hne.
Qed.

Lemma prefix_slash (a : ascii) (s : string) :
  String.prefix "/" (String a s) = Ascii.eqb "/"%char a.
Proof. apply prefix_byte. Qed.

Lemma Split_cons (a : ascii) (s : string) :
  strings.Split (String a s) "/" =
  if Ascii.eqb "/"%char a then "" :: strings.Split s "/"
  else match strings.Split s "/" with
       | p :: ps => String a p :: ps
       | [] => [String a ""]
       end.
Proof.
  unfold strings.Split. cbn [strings.split_from].
  rewrite prefix_slash. cbn [String.length Nat.sub].
  destruct (Ascii.eqb "/"%char a);
    destruct (strings.split_from "/" 0 s); reflexivity.
Qed.

Lemma Split_not_nil (s : string) : strings.Split s "/" ≠ [].
Proof. unfold strings.Split. destruct (strings.split_from "/" 0 s). discriminate. Qed.

(** The pieces of a split contain no separator. *)
Lemma Split_no_slash (s : string) :
  Forall (λ p, has_byte "/" p = false) (strings.Split s "/").
Proof.
  induction s as [|a s IH].
  - repeat constructor.
  - rewrite Split_cons. destruct (Ascii.eqb "/"%char a) eqn:Ha.
    + constructor; [reflexivity | exact IH].
    + destruct (strings.Split s "/") as [|p ps].
      * repeat constructor. cbn [has_byte]. rewrite Ha. reflexivity.
      * inversion IH; subst. constructor; [|assumption].
        cbn [has_byte]. rewrite Ha. assumption.
Qed.

Lemma Split_single (e : string) :
  has_byte "/" e = false → strings.Split e "/" = [e].
Proof.
  induction e as [|a e IH]; [reflexivity|].
  cbn [has_byte]. intros [Ha He]%orb_false_iff.
  rewrite Split_cons, Ha, (IH He). reflexivity.
Qed.

Lemma Split_app_slash (e t : string) :
  has_byte "/" e = false →
  strings.Split (e +:+ "/" +:+ t) "/" = e :: strings.Split t "/".
Proof.
  induction e as [|a e IH].
  - intros _. change ("" +:+ "/" +:+ t) with (String "/" t).
    rewrite Split_cons. reflexivity.
  - cbn [has_byte]. intros [Ha He]%orb_false_iff.
    change (String a e +:+ "/" +:+ t) with (String a (e +:+ "/" +:+ t)).
    rewrite Split_cons, Ha, (IH He). reflexivity.
Qed.

(** Splitting undoes joining, for elements without a separator. *)
Lemma Split_Join (xs : list string) :
  xs ≠ [] → Forall (λ p, has_byte "/" p = false) xs →
  strings.Split (strings.Join xs "/") "/" = xs.
Proof.
  induction xs as [|x xs IH]; [congruence|].
  intros _ Hall. inversion Hall as [|? ? Hx Hxs]; subst.
  destruct xs as [|y ys].
  - simpl. apply Split_single. exact Hx.
  - change (strings.Join (x :: y :: ys) "/")
      with (x +:+ "/" +:+ strings.Join (y :: ys) "/").
    rewrite Split_app_slash by exact Hx.
    rewrite IH; [reflexivity | discriminate | exact Hxs].
Qed.

Lemma clean_elems_clean (rooted : bool) (elems out : list string) (dotdot : nat) :
  Forall (λ p, has_byte "/" p = false) elems →
  Forall clean_elem out →
  Forall clean_elem (pathutil.clean_elems rooted elems out dotdot).
Proof.
  revert out dotdot.
  induction elems as [|e es IH]; intros out dotdot Hes Hout; simpl.
  - apply Forall_rev. exact Hout.
  - inversion Hes as [|? ? He Hes']; subst.
    destruct (String.eqb e "") eqn:E0; [apply IH; assumption|].
    destruct (String.eqb e ".") eqn:E1; [apply IH; assumption|].
    destruct (String.eqb e "..") eqn:E2.
    + destruct (dotdot <? length out)%nat.
      * apply IH; [assumption|]. destruct out; [constructor|].
        inversion Hout; assumption.
      * destruct rooted; simpl; apply IH; try assumption.
        constructor; [|assumption]. split; [discriminate | reflexivity].
    + apply IH; [assumption|]. constructor; [|assumption].
      split; [|assumption]. apply String.eqb_neq. exact E0.
Qed.

Lemma split_nonempty_tokens (toks : list string) :
  Forall clean_elem toks → split_tail toks = toks.
Proof.
  unfold split_tail. destruct toks as [|c [|d l]]; try reflexivity.
  intros Hc. inversion Hc as [|? ? [Hne _] _]; subst.
  apply String.eqb_neq in Hne. rewrite Hne. reflexivity.
Qed.

End StringFacts.

Section PathFacts.

Lemma append_assoc (s t u : string) : (s +:+ t) +:+ u = s +:+ t +:+ u.
Proof.
  induction s as [|a s IH]; [reflexivity|].
  change (String a ((s +:+ t) +:+ u) = String a (s +:+ t +:+ u)).
  rewrite IH. reflexivity.
Qed.

Lemma Split_snoc_slash (s : string) :
  strings.Split (s +:+ "/") "/" = strings.Split s "/" ++ [""].
Proof.
  induction s as [|a s IH]; [reflexivity|].
  change (String a s +:+ "/") with (String a (s +:+ "/")).
  rewrite !Split_cons, IH.
  destruct (Ascii.eqb "/"%char a); [reflexivity|].
  pose proof (Split_not_nil s) as Hne.
  destruct (strings.Split s "/"); [congruence | reflexivity].
Qed.

Lemma clean_elems_snoc_empty (rooted : bool) (elems out : list string) (dotdot : nat) :
  pathutil.clean_elems rooted (elems ++ [""]) out dotdot =
  pathutil.clean_elems rooted elems out dotdot.
Proof.
  revert out dotdot. induction elems as [|e es IH]; intros out dotdot.
  - reflexivity.
  - cbn [app pathutil.clean_elems]. rewrite !IH. reflexivity.
Qed.

(** [Clean] drops a trailing slash. *)
Lemma Clean_snoc_slash (s : string) :
  s ≠ "" → pathutil.Clean (s +:+ "/") = pathutil.Clean s.
Proof.
  intros Hs. destruct s as [|a s]; [congruence|].
  assert (E1 : String.eqb (String a s +:+ "/") "" = String.eqb (String a s) "")
    by reflexivity.
  assert (E2 : strings.HasPrefix (String a s +:+ "/") "/" =
               strings.HasPrefix (String a s) "/").
  { unfold strings.HasPrefix.
    change (String a s +:+ "/") with (String a (s +:+ "/")).
    rewrite !prefix_slash. reflexivity. }
  unfold pathutil.Clean.
  rewrite E1, E2, Split_snoc_slash, clean_elems_snoc_empty. reflexivity.
Qed.

(** The tokens of a cleaned path are cleaned elements. *)
Lemma split_Clean (s : string) : Forall clean_elem (split (pathutil.Clean s)).
Proof.
  unfold pathutil.Clean.
  destruct (String.eqb s ""); [constructor|].
  pose proof (clean_elems_clean (strings.HasPrefix s "/") _ [] 0
                (Split_no_slash s) (Forall_nil_2 _)) as Hout.
  destruct (strings.HasPrefix s "/").
  - destruct (pathutil.clean_elems true (strings.Split s "/") [] 0)
      as [|x xs] eqn:E.
    + constructor.
    + unfold split.
      change ("/" +:+ strings.Join (x :: xs) "/")
        with ("" +:+ "/" +:+ strings.Join (x :: xs) "/").
      rewrite Split_app_slash by reflexivity.
      rewrite Split_Join;
        [| discriminate | eapply Forall_impl; [exact Hout | intros ? [_ ?]; assumption]].
      cbn [tail]. rewrite split_nonempty_tokens; assumption.
  - destruct (pathutil.clean_elems false (strings.Split s "/") [] 0)
      as [|x xs] eqn:E.
    + constructor.
    + unfold split. rewrite Split_Join;
        [| discriminate | eapply Forall_impl; [exact Hout | intros ? [_ ?]; assumption]].
      cbn [tail]. inversion Hout; subst.
      rewrite split_nonempty_tokens; assumption.
Qed.

Lemma split_Join2 (pre path : string) :
  Forall clean_elem (split (pathutil.Join [pre; path])).
Proof.
  cbn [pathutil.Join].
  destruct (String.eqb pre ""); [destruct (String.eqb path "")|];
    first [apply split_Clean | constructor].
Qed.

Lemma Join2_snoc_slash (pre path : string) :
  split (pathutil.Join [pre; path +:+ "/"]) = split (pathutil.Join [pre; path]).
Proof.
  cbn [pathutil.Join].
  destruct (String.eqb pre "") eqn:Epre.
  - destruct path as [|a path]; [reflexivity|].
    change (String.eqb (String a path +:+ "/") "") with false.
    change (String.eqb (String a path) "") with false. cbv iota.
    cbn [strings.Join]. rewrite Clean_snoc_slash by discriminate. reflexivity.
  - apply String.eqb_neq in Epre.
    change (strings.Join [pre; path +:+ "/"] "/")
      with (pre +:+ "/" +:+ (path +:+ "/")).
    change (strings.Join [pre; path] "/") with (pre +:+ "/" +:+ path).
    replace (pre +:+ "/" +:+ (path +:+ "/"))
      with ((pre +:+ "/" +:+ path) +:+ "/")
      by (rewrite !append_assoc; reflexivity).
    + rewrite Clean_snoc_slash; [reflexivity|].
      destruct pre; [congruence | discriminate].
Qed.

(** C2, as amended.  With the root prefix the path ["/"] has no tokens;
    the join cleans the path, so a trailing slash leaves no empty token:
    ["/a/"] has the one token ["a"], a path with a slash appended has the
    tokens of the path without it, and no token is ever empty. *)
Theorem tokenizer_cleans_trailing_slash :
  split (pathutil.Join ["/"; "/"]) = [] ∧
  split (pathutil.Join ["/"; "/a/"]) = ["a"] ∧
  (∀ pre path : string,
      split (pathutil.Join [pre; path +:+ "/"]) =
      split (pathutil.Join [pre; path])) ∧
  (∀ pre path : string, ¬ In "" (split (pathutil.Join [pre; path]))).
Proof.
  split; [reflexivity|]. split; [reflexivity|].
  split; [exact Join2_snoc_slash|].
  intros pre path Hin.
  pose proof (split_Join2 pre path) as Hall.
  rewrite Forall_forall in Hall. apply list_elem_of_In in Hin.
  destruct (Hall _ Hin) as [Hne _]. congruence.
Qed.

(** C2 as stated fails: the trailing empty component of ["/a/"] is not a
    token. *)
Lemma tokenizer_trailing_empty_not_preserved :
  split (pathutil.Join ["/"; "/a/"]) = ["a"] ∧
  ¬ In "" (split (pathutil.Join ["/"; "/a/"])).
Proof.
  split; [reflexivity|]. cbn. intros [H|[]]. discriminate H.
Qed.

End PathFacts.

(** ** The ref token: [Encode] after [Decode] *)

Section RefTokens.

Lemma ReplaceAll_cons (o n a : ascii) (s : string) :
  strings.ReplaceAll (String a s) (String o "") (String n "") =
  String (if Ascii.eqb o a then n else a)
         (strings.ReplaceAll s (String o "") (String n "")).
Proof.
  unfold strings.ReplaceAll. cbn [strings.replace_from].
  rewrite prefix_byte. destruct (Ascii.eqb o a); reflexivity.
Qed.

(** Without the stripping of a namespace, encoding undoes decoding. *)
Lemma slashes_of_spaces_back (f : string) :
  has_byte "/" f = false →
  strings.ReplaceAll (Decode f) "/" " " = f.
Proof.
  unfold Decode. induction f as [|a f IH]; [reflexivity|].
  cbn [has_byte]. intros [Ha Hf]%orb_false_iff.
  rewrite ReplaceAll_cons.
  destruct (Ascii.eqb " "%char a) eqn:Esp.
  - apply Ascii.eqb_eq in Esp. subst a.
    rewrite ReplaceAll_cons. cbn [Ascii.eqb Bool.eqb]. cbv iota.
    rewrite (IH Hf). reflexivity.
  - rewrite ReplaceAll_cons, Ha, (IH Hf). reflexivity.
Qed.

Lemma TrimPrefix_absent (s pre : string) :
  strings.HasPrefix s pre = false → strings.TrimPrefix s pre = s.
Proof. unfold strings.TrimPrefix. intros ->. reflexivity. Qed.

(** C6, as amended.  For every filename token that contains no ['/'] and
    whose decoded form does not begin with [refs/heads/] or [refs/tags/],
    encoding the decoded form gives back the filename. *)
Theorem Encode_Decode_identity (f : string) :
  has_byte "/" f = false →
  strings.HasPrefix (Decode f) "refs/heads/" = false →
  strings.HasPrefix (Decode f) "refs/tags/" = false →
  Encode (Decode f) = f.
Proof.
  intros Hf Hheads Htags. unfold Encode.
  rewrite !TrimPrefix_absent by assumption.
  rewrite String.eqb_refl. apply slashes_of_spaces_back. exact Hf.
Qed.

Lemma Encode_Decode_identity_witness :
  has_byte "/" "feature x" = false ∧ Encode (Decode "feature x") = "feature x".
Proof.
  split; [reflexivity|].
  apply (Encode_Decode_identity "feature x"); reflexivity.
Defined.

(** C6 as stated fails: a filename without ['/'] that spells a ref
    namespace with spaces loses it. *)
Lemma Encode_Decode_strips_namespace :
  has_byte "/" "refs heads main" = false ∧
  Encode (Decode "refs heads main") = "main" ∧
  Encode (Decode "refs heads main") ≠ "refs heads main".
Proof. split; [reflexivity | split; [reflexivity | discriminate]]. Qed.

End RefTokens.

(** ** The attribute projector *)

Section Attributes.
Context `{P : Providers}.

(** In the default case [mode] has been overwritten with
    [S_IFREG | 0644] before bit [0400] of it is tested: the test always
    succeeds, whatever the mode of the entry. *)
Lemma fuseStat_regular (mode size : Z) (t : Time) :
  regular_class mode →
  Mode (fuseStat mode size t) = Z.lor fuse.S_IFREG o0755.
Proof.
  intros (Hdir & Hlnk & Hsub). unfold fuseStat. cbn [Mode].
  apply Z.eqb_neq in Hdir, Hlnk, Hsub. rewrite Hdir, Hlnk, Hsub.
  reflexivity.
Qed.

(** C1 fails on the code.  A regular file without the executable bit
    (git mode [0100644]) is projected with mode [S_IFREG | 0755], not
    [S_IFREG | 0644]. *)
Theorem fuseStat_nonexecutable_gets_0755 (size : Z) (t : Time) :
  let mode := Z.lor fuse.S_IFREG o0644 in
  regular_class mode ∧
  Z.land mode o0100 = 0 ∧
  Mode (fuseStat mode size t) = Z.lor fuse.S_IFREG o0755 ∧
  Mode (fuseStat mode size t) ≠ Z.lor fuse.S_IFREG o0644.
Proof.
  cbv zeta. split; [|split; [|split]].
  - repeat split; discriminate.
  - reflexivity.
  - reflexivity.
  - discriminate.
Qed.

(** The same mode reaches the stat that [getattr] fills in. *)
Lemma getattr_regular (fs : hubfs) (obs : obstack) (e : TreeEntry)
      (path : string) (rf : Ref) (w : World) :
  ref obs = Some rf → regular_class (Entry_Mode e) →
  getattr fs obs (Some e) path w =
    (Ok (fuseStat (Entry_Mode e) (Entry_Size e) (Ref_TreeTime rf), ""), w, []).
Proof.
  intros Href (_ & Hlnk & Hsub). unfold getattr. rewrite Href.
  apply Z.eqb_neq in Hlnk, Hsub.
  unfold mbind, M_bind, mret, M_ret, deref. rewrite Hlnk, Hsub. reflexivity.
Qed.

End Attributes.

(** [README.md] of the small provider has git mode [0100644]. *)
Example getattr_README :
  let obs := mkObstack (P := demo.providers) (Some "Alice") (Some "Project")
               (Some "refs/heads/main") None None in
  let e := demo.mkEntry "README.md" (Z.lor fuse.S_IFREG o0644) "" in
  option_map Mode
    match getattr (P := demo.providers) demo.fs0 obs (Some e)
            "/alice/project/main/README.md" (demo.mkWorld true 0)
    with
    | (Ok (stat, _), _, _) => Some stat
    | _ => None
    end
  = Some (Z.lor fuse.S_IFREG o0755).
Proof. vm_compute. reflexivity. Qed.

(** ** The resolver *)

Section Resolver.
Context `{P : Providers}.

(** *** Running a computation *)

Lemma bind_run {A B : Type} (m : M A) (f : A → M B) (w : World) :
  (m ≫= f) w =
  match m w with
  | (Ok a, w1, t1) => let '(r, w2, t2) := f a w1 in (r, w2, t1 ++ t2)
  | (Panic, w1, t1) => (Panic, w1, t1)
  end.
Proof. reflexivity. Qed.

Lemma ret_run {A : Type} (a : A) (w : World) :
  (mret a : M A) w = (Ok a, w, []).
Proof. reflexivity. Qed.

Lemma call_run {A : Type} (f : World → A * World) (ev : A → Event) (w : World) :
  call f ev w = (Ok (f w).1, (f w).2, [ev (f w).1]).
Proof. unfold call. destruct (f w). reflexivity. Qed.

(** *** Traces are read call by call *)

Lemma opened_owners_app (t1 t2 : list Event) :
  opened_owners (t1 ++ t2) = opened_owners t1 ++ opened_owners t2.
Proof. apply flat_map_app. Qed.

Lemma closed_owners_app (t1 t2 : list Event) :
  closed_owners (t1 ++ t2) = closed_owners t1 ++ closed_owners t2.
Proof. apply flat_map_app. Qed.

Lemma opened_repositories_app (t1 t2 : list Event) :
  opened_repositories (t1 ++ t2) =
  opened_repositories t1 ++ opened_repositories t2.
Proof. apply flat_map_app. Qed.

Lemma closed_repositories_app (t1 t2 : list Event) :
  closed_repositories (t1 ++ t2) =
  closed_repositories t1 ++ closed_repositories t2.
Proof. apply flat_map_app. Qed.

Lemma resolved_names_app (t1 t2 : list Event) :
  resolved_names (t1 ++ t2) = resolved_names t1 ++ resolved_names t2.
Proof. apply flat_map_app. Qed.

(** *** [release] gives back what the obstack holds *)

Lemma release_spec (obs : obstack) (w : World) :
  ∃ w' tr,
    release obs w = (Ok tt, w', tr) ∧
    closed_owners tr = held_owner obs ∧
    closed_repositories tr = held_repository obs ∧
    opened_owners tr = [] ∧ opened_repositories tr = [] ∧
    resolved_names tr = [].
Proof.
  unfold release, held_owner, held_repository.
  destruct (repository obs) as [r|], (owner obs) as [o|];
    do 2 eexists; (split; [reflexivity|]); repeat split.
Qed.

(** *** One token, then the whole walk *)

Lemma populated_inv (n : nat) (obs : obstack) :
  populated n obs →
  (owner obs = None ↔ n = 0%nat) ∧
  (repository obs = None ↔ (n ≤ 1)%nat) ∧
  (ref obs = None ↔ (n ≤ 2)%nat) ∧
  (entry obs = None ↔ (n ≤ 3)%nat).
Proof.
  intros (Ho & Hr & Hf & He).
  rewrite is_Some_alt in Ho; rewrite is_Some_alt in Hr;
  rewrite is_Some_alt in Hf; rewrite is_Some_alt in He.
  destruct (owner obs), (repository obs), (ref obs), (entry obs);
    repeat split; intros; try congruence; try lia; exfalso; intuition lia.
Qed.

Lemma openex_step_spec (norm : bool) (i : nat) (c : string) (obs : obstack)
      (lst : list string) (w : World) :
  populated i obs → (i < length lst)%nat →
  ∃ obs' err lst' w' tr,
    openex_step norm i c obs lst w = (Ok (obs', err, lst'), w', tr) ∧
    closed_owners tr = [] ∧ closed_repositories tr = [] ∧
    held_owner obs' = held_owner obs ++ opened_owners tr ∧
    held_repository obs' = held_repository obs ++ opened_repositories tr ∧
    match err with
    | None =>
        populated (S i) obs' ∧
        ∃ n, resolved_names tr = [n] ∧
             lst' = if norm then <[i:=n]> lst else lst
    | Some _ => resolved_names tr = [] ∧ lst' = lst
    end.
Proof.
  intros Hpop Hi.
  pose proof (populated_inv _ _ Hpop) as (Io & Ir & If & Ie).
  destruct obs as [oo orp orf oe rd]. cbn [owner repository ref entry] in *.
  destruct i as [|[|[|i]]]; pop_subst.
  - unfold openex_step.
    destruct (negb (-1 =? strings.IndexFunc c is_dot) || String.eqb "HEAD" c).
    + do 5 eexists. split; [reflexivity|]. finish_step.
    + repeat (run_step; try destruct_call); destruct norm; run_step.
      all: do 5 eexists; (split; [reflexivity|]); finish_step.
  - repeat (run_step; try destruct_call); destruct norm; run_step.
    all: do 5 eexists; (split; [reflexivity|]); finish_step.
  - repeat (run_step; try destruct_call); destruct norm; run_step.
    all: do 5 eexists; (split; [reflexivity|]); finish_step.
  - repeat (run_step; try destruct_call); destruct norm; run_step.
    all: do 5 eexists; (split; [reflexivity|]); finish_step.
Qed.

Lemma fuseErrc_nonzero (err : option error) : fuseErrc err ≠ 0.
Proof. destruct err as [[|m]|]; discriminate. Qed.

Lemma take_S_insert (lst : list string) (i : nat) (n : string) :
  (i < length lst)%nat → take (S i) (<[i:=n]> lst) = take i lst ++ [n].
Proof.
  intros Hi. rewrite insert_take_drop by exact Hi.
  rewrite take_app_ge by (rewrite length_take; lia).
  rewrite length_take. replace (S i - i `min` length lst)%nat with 1%nat by lia.
  reflexivity.
Qed.

Lemma openex_loop_spec (norm : bool) (cs : list string) :
  ∀ (i : nat) (obs : obstack) (lst : list string) (w : World),
    populated i obs → length lst = (i + length cs)%nat →
    ∃ errc res lst' w' tr,
      openex_loop norm i cs obs lst w = (Ok (errc, res, lst'), w', tr) ∧
      (length (resolved_names tr) ≤ length cs)%nat ∧
      lst' = (if norm
              then take i lst ++ resolved_names tr
                     ++ drop (i + length (resolved_names tr)) lst
              else lst) ∧
      match res with
      | Some obs' =>
          errc = 0 ∧ populated (i + length cs) obs' ∧
          length (resolved_names tr) = length cs ∧
          closed_owners tr = [] ∧ closed_repositories tr = [] ∧
          held_owner obs' = held_owner obs ++ opened_owners tr ∧
          held_repository obs' = held_repository obs ++ opened_repositories tr
      | None =>
          errc ≠ 0 ∧ (length (resolved_names tr) < length cs)%nat ∧
          closed_owners tr = held_owner obs ++ opened_owners tr ∧
          closed_repositories tr =
            held_repository obs ++ opened_repositories tr
      end.
Proof.
  induction cs as [|c cs IH]; intros i obs lst w Hpop Hlen.
  - do 5 eexists. split; [reflexivity|].
    cbn [resolved_names flat_map length opened_owners opened_repositories
         closed_owners closed_repositories].
    rewrite !Nat.add_0_r, !app_nil_r. cbn [app]. rewrite take_drop.
    conjs; try reflexivity; try lia; try assumption.
    destruct norm; reflexivity.
  - cbn [length] in Hlen.
    destruct (openex_step_spec norm i c obs lst w Hpop ltac:(lia))
      as (obs1 & err & lst1 & w1 & t1 & Hstep & Hco & Hcr & Hho & Hhr & Herr).
    cbn [openex_loop]. rewrite bind_run, Hstep.
    destruct err as [e|].
    + destruct Herr as [Hnames ->].
      destruct (release_spec obs1 w1)
        as (w2 & t2 & Hrel & Hco2 & Hcr2 & Hoo2 & Hor2 & Hn2).
      rewrite bind_run, Hrel, ret_run.
      do 5 eexists. split; [reflexivity|].
      rewrite !resolved_names_app, !closed_owners_app, !closed_repositories_app,
        !opened_owners_app, !opened_repositories_app.
      rewrite Hnames, Hn2, Hco, Hcr, Hco2, Hcr2, Hoo2, Hor2, Hho, Hhr.
      cbn [resolved_names closed_owners closed_repositories opened_owners
           opened_repositories flat_map app length].
      rewrite !app_nil_r, Nat.add_0_r, take_drop.
      conjs; try lia; try reflexivity.
      * destruct norm; reflexivity.
      * apply fuseErrc_nonzero.
    + destruct Herr as (Hpop1 & n & Hnames & ->).
      assert (Hlen1 : length (if norm then <[i:=n]> lst else lst)
                      = (S i + length cs)%nat).
      { destruct norm; rewrite ?length_insert; lia. }
      destruct (IH (S i) obs1 _ w1 Hpop1 Hlen1)
        as (errc & res & lst' & w2 & t2 & Hloop & Hk & Hlst & Hres).
      rewrite Hloop. do 5 eexists. split; [reflexivity|].
      rewrite !resolved_names_app, !closed_owners_app, !closed_repositories_app,
        !opened_owners_app, !opened_repositories_app.
      rewrite Hnames, Hco, Hcr. cbn [app length].
      split; [lia|]. split.
      * rewrite Hlst. destruct norm; [|reflexivity].
        rewrite take_S_insert by lia.
        rewrite drop_insert_lt by lia.
        rewrite <- app_assoc. cbn [app].
        replace (S i + length (resolved_names t2))%nat
          with (i + S (length (resolved_names t2)))%nat by lia.
        reflexivity.
      * destruct res as [obs'|].
        -- destruct Hres as (-> & Hp & Hnl & Hco2 & Hcr2 & Hho2 & Hhr2).
           rewrite Hho2, Hhr2, Hho, Hhr, Hco2, Hcr2, <- !app_assoc.
           replace (i + S (length cs))%nat with (S i + length cs)%nat by lia.
           conjs; try assumption; try reflexivity; lia.
        -- destruct Hres as (Hne & Hnl & Hco2 & Hcr2).
           rewrite Hco2, Hcr2, Hho, Hhr, <- !app_assoc.
           conjs; try assumption; try reflexivity; lia.
Qed.

(** *** The claims about [openex] and [Readpath] *)

Lemma index_from_found (s : string) (i : Z) :
  0 ≤ i → has_byte "." s = true → 0 ≤ strings.index_from is_dot i s.
Proof.
  revert i. induction s as [|a s IH]; intros i Hi; [discriminate|].
  cbn [has_byte strings.index_from]. unfold is_dot at 1.
  destruct (Ascii.eqb "."%char a); [intros _; exact Hi|].
  cbn [orb]. apply IH. lia.
Qed.

Lemma populated_zero : populated 0 obstack_zero.
Proof.
  unfold populated, obstack_zero. cbn [owner repository ref entry].
  rewrite !is_Some_alt. intuition lia.
Qed.


(** C7.  [openex] either fails with a non-zero errno, no obstack, and
    every owner and repository acquired during the walk closed again, or
    succeeds with errno zero and an obstack populated exactly to the depth
    of the token sequence, every token resolved, nothing closed, and the
    obstack holding what the walk acquired. *)
Theorem openex_atomic (fs : hubfs) (path : string) (norm : bool) (w : World) :
  ∃ errc res lst w' tr,
    openex fs path norm w = (Ok (errc, res, lst), w', tr) ∧
    match res with
    | None =>
        errc ≠ 0 ∧
        closed_owners tr = opened_owners tr ∧
        closed_repositories tr = opened_repositories tr
    | Some obs =>
        errc = 0 ∧
        populated (length (split (pathutil.Join [prefix fs; path]))) obs ∧
        length (resolved_names tr) =
          length (split (pathutil.Join [prefix fs; path])) ∧
        closed_owners tr = [] ∧ closed_repositories tr = [] ∧
        held_owner obs = opened_owners tr ∧
        held_repository obs = opened_repositories tr
    end.
Proof.
  unfold openex.
  destruct (openex_loop_spec norm (split (pathutil.Join [prefix fs; path]))
              0 obstack_zero _ w populated_zero eq_refl)
    as (errc & res & lst & w' & tr & Hrun & _ & _ & Hres).
  exists errc, res, lst, w', tr. split; [exact Hrun|].
  destruct res as [obs|]; cbn [held_owner held_repository obstack_zero
                                 owner repository app Nat.add] in Hres.
  - exact Hres.
  - destruct Hres as (Hne & _ & Hco & Hcr). auto.
Qed.


(** C3.  [Readpath] always returns with [errc] zero, also when the
    resolution fails partway.  Its target is ["/"] followed by the join of
    the token list as normalised so far (the names of what was resolved,
    then the tokens that were not reached, as given), with the mount prefix
    less its trailing slash trimmed from the front. *)
Theorem Readpath_forces_errc_zero (fs : hubfs) (path : string) (w : World) :
  ∃ errc res lst w1 tr1 w2 tr2,
    openex fs path true w = (Ok (errc, res, lst), w1, tr1) ∧
    Readpath fs path w =
      (Ok (0, strings.TrimPrefix ("/" +:+ pathutil.Join lst)
                (strings.TrimSuffix (prefix fs) "/")),
       w2, tr1 ++ tr2) ∧
    lst = resolved_names tr1
            ++ drop (length (resolved_names tr1))
                    (split (pathutil.Join [prefix fs; path])) ∧
    (errc ≠ 0 ↔
     (length (resolved_names tr1)
      < length (split (pathutil.Join [prefix fs; path])))%nat).
Proof.
  unfold Readpath, openex.
  destruct (openex_loop_spec true (split (pathutil.Join [prefix fs; path]))
              0 obstack_zero _ w populated_zero eq_refl)
    as (errc & res & lst & w1 & tr1 & Hrun & Hk & Hlst & Hres).
  cbn [take app Nat.add] in Hlst.
  rewrite bind_run, Hrun.
  destruct res as [obs|].
  - destruct Hres as (-> & _ & Hall & _).
    destruct (release_spec obs w1) as (w2 & t2 & Hrel & _).
    exists 0, (Some obs), lst, w1, tr1, w2, t2.
    split; [reflexivity|]. split; [|split; [exact Hlst|]].
    + cbn [Z.eqb deref]. rewrite bind_run, bind_run, ret_run.
      cbn [app]. rewrite Hrel, ret_run, app_nil_r. reflexivity.
    + split; [congruence | lia].
  - destruct Hres as (Hne & Hlt & _).
    exists errc, None, lst, w1, tr1, w1, [].
    split; [reflexivity|]. split; [|split; [exact Hlst|]].
    + assert (E : (0 =? errc) = false) by (apply Z.eqb_neq; congruence).
      rewrite E, bind_run, ret_run, ret_run. reflexivity.
    + split; [intros _; exact Hlt | intros _; exact Hne].
Qed.

End Resolver.

(** Concrete runs of the resolver on the small provider. *)



(** ** The handle table *)

Section Handles.
Context `{P : Providers}.

(** What a request does to the counter: nothing, or it issues the
    current value and moves the counter on. *)
Lemma serve_handle (fs fs' : hubfs) (rq : request) (w w' : World)
      (h : option Z) (tr : list Event) :
  serve fs rq w = (Ok (fs', h), w', tr) →
  (h = None ∧ fh fs' = fh fs) ∨
  (h = Some (fh fs) ∧ fh fs' = fh_next (fh fs)).
Proof.
  destruct rq as [path|path|path fill ofst k|path k|path flags|path k];
    unfold serve.
  - rewrite bind_run. destruct (Readpath fs path w) as [[[r|] w1] t1];
      [|discriminate]. rewrite ret_run. intros [= <- <- _ _]. auto.
  - rewrite bind_run. unfold Opendir. rewrite bind_run.
    destruct (open fs path w) as [[[[errc obs]|] w1] t1]; [|discriminate].
    destruct (0 =? errc) eqn:E; cbn [negb]; rewrite ret_run, ret_run;
      cbn [app]; rewrite E; intros [= <- <- _ _]; cbn [fh]; auto.
  - rewrite bind_run. destruct (Readdir fs path fill ofst k w) as [[[r|] w1] t1];
      [|discriminate]. rewrite ret_run. intros [= <- <- _ _]. auto.
  - rewrite bind_run. unfold Releasedir.
    destruct (openmap fs !! k) as [[obs|]|].
    + rewrite bind_run. cbn [deref]. rewrite ret_run, bind_run.
      destruct (release obs w) as [[[r|] w1] t1]; [|discriminate].
      rewrite ret_run, ret_run. intros [= <- <- _ _]. cbn [fh]. auto.
    + rewrite bind_run. cbn [deref]. unfold panic. discriminate.
    + rewrite ret_run, ret_run. intros [= <- <- _ _]. auto.
  - rewrite bind_run. unfold Open. rewrite bind_run.
    destruct (open fs path w) as [[[[errc obs]|] w1] t1]; [|discriminate].
    destruct (0 =? errc) eqn:E; cbn [negb]; rewrite ret_run, ret_run;
      cbn [app]; rewrite E; intros [= <- <- _ _]; cbn [fh]; auto.
  - rewrite bind_run. unfold Release.
    destruct (openmap fs !! k) as [[obs|]|].
    + rewrite bind_run. cbn [deref]. rewrite ret_run, bind_run.
      match goal with
      | |- context [match ?m w with _ => _ end] =>
          destruct (m w) as [[[r|] w1] t1]; [|discriminate]
      end.
      rewrite bind_run.
      destruct (release obs w1) as [[[r'|] w2] t2]; [|discriminate].
      rewrite ret_run, ret_run. intros [= <- <- _ _]. cbn [fh]. auto.
    + rewrite bind_run. cbn [deref]. unfold panic. discriminate.
    + rewrite ret_run, ret_run. intros [= <- <- _ _]. auto.
Qed.

Lemma fh_next_range (k : Z) : 0 ≤ fh_next k < 2 ^ 64.
Proof. unfold fh_next. apply Z.mod_pos_bound. lia. Qed.

(** The [i]-th handle issued is the counter at the start plus [i], on 64
    bits. *)
Lemma issued_nth (rqs : list request) :
  ∀ (fs : hubfs) (w : World) (i : nat) (h : Z),
    0 ≤ fh fs < 2 ^ 64 →
    issued fs rqs w !! i = Some h →
    h = (fh fs + Z.of_nat i) mod 2 ^ 64.
Proof.
  induction rqs as [|rq rqs IH]; intros fs w i h Hfh; [discriminate|].
  cbn [issued].
  destruct (serve fs rq w) as [[[[fs' k]|] w'] tr] eqn:Hserve; [|discriminate].
  destruct (serve_handle _ _ _ _ _ _ _ Hserve) as [[-> Hk]|[-> Hk]];
    simpl option_list; cbn [app].
  - intros Hi. rewrite <- Hk. apply (IH fs' w'); [rewrite Hk|]; assumption.
  - destruct i as [|i]; cbn [lookup list_lookup].
    + intros [= <-]. rewrite Z.add_0_r, Z.mod_small; [reflexivity | exact Hfh].
    + intros Hi.
      rewrite (IH fs' w' i h) by (rewrite ?Hk; auto using fh_next_range).
      rewrite Hk. unfold fh_next. rewrite Zplus_mod_idemp_l. f_equal. lia.
Qed.

Lemma issued_length (rqs : list request) :
  ∀ (fs : hubfs) (w : World), (length (issued fs rqs w) ≤ length rqs)%nat.
Proof.
  induction rqs as [|rq rqs IH]; intros fs w; [reflexivity|].
  cbn [issued length].
  destruct (serve fs rq w) as [[[[fs' [k|]]|] w'] tr];
    simpl; try lia; specialize (IH fs' w'); lia.
Qed.

(** C4, as amended.  Handles come from a 64-bit counter that starts at
    zero: within a process the first handle issued is 0 and the [i]-th is
    [i], so, for as long as at most [2^64] requests have been served, the
    sequence of handles issued is strictly increasing, and no handle equals
    an earlier one, released or not. *)
Theorem handles_count_up_from_zero (c : Config) (rqs : list request)
        (w : World) :
  Z.of_nat (length rqs) ≤ 2 ^ 64 →
  let hs := issued (new c) rqs w in
  (∀ (i : nat) (h : Z), hs !! i = Some h → h = Z.of_nat i) ∧
  (∀ (i j : nat) (hi hj : Z),
      (i < j)%nat → hs !! i = Some hi → hs !! j = Some hj → hi < hj).
Proof.
  intros Hlen hs.
  assert (Hnth : ∀ (i : nat) (h : Z), hs !! i = Some h → h = Z.of_nat i).
  { intros i h Hi.
    pose proof (lookup_lt_Some _ _ _ Hi) as Hlt.
    pose proof (issued_length rqs (new c) w) as Hle.
    rewrite (issued_nth rqs (new c) w i h) by (cbn; auto; lia).
    cbn [new fh]. rewrite Z.add_0_l. apply Z.mod_small.
    fold hs in Hle. lia. }
  split; [exact Hnth|].
  intros i j hi hj Hij Hi Hj.
  rewrite (Hnth i hi Hi), (Hnth j hj Hj). lia.
Qed.

End Handles.

Lemma handles_count_up_from_zero_witness :
  issued (P := demo.providers) demo.fs0
    [ReqOpendir "/"; ReqOpen "/alice/project/main/README.md" 0;
     ReqOpen "/bob" 0; ReqReleasedir "/" 0; ReqOpendir "/alice"]
    (demo.mkWorld true 0)
  = [0; 1; 2] ∧
  Z.of_nat 5 ≤ 2 ^ 64 ∧
  (∀ (i : nat) (h : Z), [0; 1; 2] !! i = Some h → h = Z.of_nat i).
Proof.
  split; [vm_compute; reflexivity|]. split; [lia|].
  pose proof (handles_count_up_from_zero (P := demo.providers)
                (mkConfig "/" false false)
                [ReqOpendir "/"; ReqOpen "/alice/project/main/README.md" 0;
                 ReqOpen "/bob" 0; ReqReleasedir "/" 0; ReqOpendir "/alice"]
                (demo.mkWorld true 0) ltac:(cbn; lia)) as [H _].
  exact H.
Defined.

(** C4 as stated fails: the first handle issued is zero. *)
Lemma first_handle_is_zero :
  (Opendir (P := demo.providers) demo.fs0 "/" (demo.mkWorld true 0)).1.1
  = Ok (0, 0, mkHubfs (P := demo.providers) "/" 1 {[ 0 := Some obstack_zero ]}) ∧
  issued (P := demo.providers) demo.fs0 [ReqOpendir "/"] (demo.mkWorld true 0) = [0].
Proof. split; vm_compute; reflexivity. Qed.

(** ** The directory listing *)

Section Listing.
Context `{P : Providers}.

Lemma substring_length_le (n m : nat) (s : string) :
  (String.length (String.substring n m s) ≤ m)%nat.
Proof.
  revert n m. induction s as [|a s IH]; intros n m.
  - destruct n, m; cbn; lia.
  - destruct n as [|n]; [destruct m as [|m]|]; cbn [String.substring String.length].
    + lia.
    + specialize (IH 0%nat m). lia.
    + apply IH.
Qed.

Lemma prefix_length_le (p s : string) :
  String.prefix p s = true → (String.length p ≤ String.length s)%nat.
Proof.
  revert s. induction p as [|a p IH]; intros s; [cbn; lia|].
  destruct s as [|b s]; [discriminate|].
  change (String.prefix (String a p) (String b s))
    with (if ascii_dec a b then String.prefix p s else false).
  destruct (ascii_dec a b); [|discriminate].
  intros H%IH. cbn [String.length]. lia.
Qed.

(** [r == n] after [n := strings.TrimPrefix(r, prefix)] tells whether the
    prefix, if it is not empty, was absent. *)
Lemma eqb_TrimPrefix (r pre : string) :
  pre ≠ "" →
  String.eqb r (strings.TrimPrefix r pre) = negb (strings.HasPrefix r pre).
Proof.
  intros Hpre. unfold strings.TrimPrefix.
  destruct (strings.HasPrefix r pre) eqn:E; [|apply String.eqb_refl].
  apply String.eqb_neq. intros Heq.
  apply prefix_length_le in E.
  pose proof (substring_length_le (String.length pre)
                (String.length r - String.length pre) r) as Hle.
  rewrite <- Heq in Hle.
  destruct pre; [congruence|]. cbn [String.length] in *. lia.
Qed.

Lemma heads_listing_cons (elm : Ref) (lst : list Ref) :
  heads_listing (elm :: lst) =
  if strings.HasPrefix (Ref_Name elm) "refs/heads/"
  then strings.ReplaceAll (strings.TrimPrefix (Ref_Name elm) "refs/heads/") "/" " "
       :: heads_listing lst
  else heads_listing lst.
Proof.
  unfold heads_listing. cbn [map List.filter].
  destruct (strings.HasPrefix (Ref_Name elm) "refs/heads/"); reflexivity.
Qed.

Lemma fill_accepts_cons (ev : Event) (tr : list Event) :
  fill_accepts (ev :: tr) → fill_accepts tr.
Proof. intros H name stat ofst ok Hin. eapply H. right. exact Hin. Qed.

(** The loop over the refs: it returns, it only calls [fill], and it passes
    the head refs in order until [fill] refuses one. *)
Lemma readdir_refs_spec (fill : filler) (stat : Stat_t) (lst : list Ref) :
  ∀ w : World,
    ∃ w' tr,
      readdir_refs fill stat lst w = (Ok tt, w', tr) ∧
      Forall (λ ev, enum_failed ev = false) tr ∧
      (∃ k, filled tr = take k (heads_listing lst)) ∧
      (fill_accepts tr → filled tr = heads_listing lst).
Proof.
  induction lst as [|elm lst IH]; intros w.
  - exists w, []. split; [reflexivity|]. split; [constructor|].
    split; [exists 0%nat; reflexivity | reflexivity].
  - cbn [readdir_refs]. rewrite heads_listing_cons.
    rewrite eqb_TrimPrefix by discriminate.
    destruct (strings.HasPrefix (Ref_Name elm) "refs/heads/"); cbn [negb].
    + rewrite bind_run. unfold call_fill. rewrite call_run.
      destruct (fill _ stat 0 w) as [ok w1]. cbn [fst snd].
      destruct ok; cbn [negb].
      * destruct (IH w1) as (w' & tr & Hrun & Hall & [k Hk] & Hacc).
        rewrite Hrun. do 2 eexists. split; [reflexivity|].
        split; [constructor; [reflexivity | exact Hall]|].
        cbn [app filled flat_map]. fold (filled tr). split.
        -- exists (S k). rewrite Hk. reflexivity.
        -- intros Ha. rewrite Hacc; [reflexivity|].
           eapply fill_accepts_cons. exact Ha.
      * rewrite ret_run. do 2 eexists. split; [reflexivity|].
        split; [repeat constructor|]. split.
        -- exists 1%nat. reflexivity.
        -- intros Ha. exfalso.
           specialize (Ha _ _ _ _ (or_introl eq_refl)). discriminate.
    + apply IH.
Qed.

(** The loops over repositories and owners: they return and only call
    [fill]. *)
Lemma readdir_names_spec {A : Type} (Name : A → string) (fill : filler)
      (stat : Stat_t) (lst : list A) :
  ∀ w : World,
    ∃ w' tr,
      readdir_names Name fill stat lst w = (Ok tt, w', tr) ∧
      Forall (λ ev, enum_failed ev = false) tr.
Proof.
  induction lst as [|elm lst IH]; intros w.
  - exists w, []. split; [reflexivity | constructor].
  - cbn [readdir_names]. rewrite bind_run. unfold call_fill. rewrite call_run.
    destruct (fill _ stat 0 w) as [ok w1]. cbn [fst snd].
    destruct ok; cbn [negb].
    + destruct (IH w1) as (w' & tr & Hrun & Hall).
      rewrite Hrun. do 2 eexists. split; [reflexivity|].
      constructor; [reflexivity | exact Hall].
    + rewrite ret_run. do 2 eexists. split; [reflexivity|].
      repeat constructor.
Qed.

(** [getattr] makes no enumeration call. *)
Lemma getattr_trace (fs : hubfs) (obs : obstack) (e : option TreeEntry)
      (path : string) (w : World) :
  Forall (λ ev, enum_failed ev = false) (getattr fs obs e path w).2.
Proof.
  unfold getattr. destruct e as [e|]; [|repeat constructor].
  unfold mbind, M_bind, mret, M_ret, deref, panic, slice_from, call.
  destruct (ref obs) as [rf|]; [|constructor].
  cbn -[split pathutil.Join strings.TrimPrefix strings.TrimSuffix
        String.append String.eqb fuseStat].
  destruct (Z.land (Entry_Mode e) fuse.S_IFMT =? fuse.S_IFLNK); [constructor|].
  destruct (Z.land (Entry_Mode e) fuse.S_IFMT =? o0160000); [|constructor].
  destruct (decide _); [|constructor].
  cbn -[split pathutil.Join strings.TrimPrefix strings.TrimSuffix
        String.append String.eqb fuseStat].
  destruct (repository obs) as [repo|]; [|constructor].
  cbn -[split pathutil.Join strings.TrimPrefix strings.TrimSuffix
        String.append String.eqb fuseStat].
  destruct (GetModule _ _ _ _ _) as [[module err] w1].
  cbn -[split pathutil.Join strings.TrimPrefix strings.TrimSuffix
        String.append String.eqb fuseStat].
  repeat constructor.
Qed.

Lemma readdir_tree_trace (fs : hubfs) (obs : obstack) (path : string)
      (fill : filler) (lst : list TreeEntry) :
  ∀ w : World,
    Forall (λ ev, enum_failed ev = false)
           (readdir_tree fs obs path fill lst w).2.
Proof.
  induction lst as [|elm lst IH]; intros w; [constructor|].
  cbn [readdir_tree]. rewrite bind_run.
  pose proof (getattr_trace fs obs (Some elm)
                (pathutil.Join [path; Entry_Name elm]) w) as Hg.
  destruct (getattr fs obs (Some elm) _ w) as [[[[stat tgt]|] w1] t1];
    cbn [snd] in Hg |- *; [|exact Hg].
  rewrite bind_run. unfold call_fill. rewrite call_run.
  destruct (fill _ stat 0 w1) as [ok w2]. cbn [fst snd].
  destruct ok; cbn [negb].
  - specialize (IH w2).
    destruct (readdir_tree fs obs path fill lst w2) as [[o w3] t3].
    cbn [snd] in IH |- *. apply Forall_app. split; [exact Hg|].
    constructor; [reflexivity | exact IH].
  - rewrite ret_run. cbn [snd]. apply Forall_app. split; [exact Hg|].
    repeat constructor.
Qed.


Lemma no_enum_failed (tr : list Event) :
  Forall (λ ev, enum_failed ev = false) tr →
  Exists (λ ev, enum_failed ev = true) tr → False.
Proof.
  intros Hall Hex. rewrite Forall_forall in Hall.
  apply Exists_exists in Hex. destruct Hex as (ev & Hin & Hev).
  rewrite (Hall ev Hin) in Hev. discriminate.
Qed.

(** C10.  For a valid handle [Readdir] never returns a non-zero [errc].
    When the enumeration call ([GetTree], [GetRefs], [GetRepositories] or
    [GetOwners]) fails, it returns zero all the same and the only names
    passed to [fill] are ["."] and [".."].  Above the level of a ref it
    returns zero whatever happens. *)
Theorem Readdir_discards_enumeration_error (fs : hubfs) (path : string)
        (fill : filler) (ofst h : Z) (obs : obstack) (n : nat) (w : World) :
  openmap fs !! h = Some (Some obs) → populated n obs →
  let '(out, _, tr) := Readdir fs path fill ofst h w in
  (∀ errc, out = Ok errc → errc = 0) ∧
  (ref obs = None → out = Ok 0) ∧
  (Exists (λ ev, enum_failed ev = true) tr →
   out = Ok 0 ∧ filled tr = ["."; ".."]).
Proof.
  intros Hlook (Ho & Hr & Hf & He).
  rewrite is_Some_alt in Ho; rewrite is_Some_alt in Hr;
    rewrite is_Some_alt in Hf; rewrite is_Some_alt in He.
  destruct obs as [oo orp orf oe rd]. cbn [owner repository ref entry] in *.
  unfold Readdir. rewrite Hlook.
  destruct oo as [o|], orp as [r|], orf as [rf|], oe as [e|];
    try (exfalso; intuition lia); run_readdir.
  - (* a tree entry *)
    destruct (fill "." _ 0 w) as [ok1 w1]; run_readdir.
    destruct (fill ".." _ 0 w1) as [ok2 w2]; run_readdir.
    destruct (GetTree r (Some rf) (Some e) w2) as [[lst|err] w3]; run_readdir.
    + pose proof (readdir_tree_trace fs
                    (mkObstack (Some o) (Some r) (Some rf) (Some e) rd)
                    path fill lst w3) as Htr.
      destruct (readdir_tree fs _ path fill lst w3) as [[[[]|] w4] t4];
        cbn [snd] in Htr; run_readdir.
      * split; [intros errc [= <-]; reflexivity|]. split; [discriminate|].
        intros Hex. exfalso. rewrite app_nil_r in Hex.
        apply (no_enum_failed t4 Htr). enum_inv Hex.
      * split; [discriminate|]. split; [discriminate|].
        intros Hex. exfalso. apply (no_enum_failed t4 Htr). enum_inv Hex.
    + split; [intros errc [= <-]; reflexivity|]. split; [discriminate|].
      intros _. split; reflexivity.
  - (* the root of the tree of a ref *)
    destruct (fill "." _ 0 w) as [ok1 w1]; run_readdir.
    destruct (fill ".." _ 0 w1) as [ok2 w2]; run_readdir.
    destruct (GetTree r (Some rf) None w2) as [[lst|err] w3]; run_readdir.
    + pose proof (readdir_tree_trace fs
                    (mkObstack (Some o) (Some r) (Some rf) None rd)
                    path fill lst w3) as Htr.
      destruct (readdir_tree fs _ path fill lst w3) as [[[[]|] w4] t4];
        cbn [snd] in Htr; run_readdir.
      * split; [intros errc [= <-]; reflexivity|]. split; [discriminate|].
        intros Hex. exfalso. rewrite app_nil_r in Hex.
        apply (no_enum_failed t4 Htr). enum_inv Hex.
      * split; [discriminate|]. split; [discriminate|].
        intros Hex. exfalso. apply (no_enum_failed t4 Htr). enum_inv Hex.
    + split; [intros errc [= <-]; reflexivity|]. split; [discriminate|].
      intros _. split; reflexivity.
  - (* a repository *)
    destruct (fill "." _ 0 w) as [ok1 w1]; run_readdir.
    destruct (fill ".." _ 0 w1) as [ok2 w2]; run_readdir.
    destruct (GetRefs r w2) as [[lst|err] w3]; run_readdir.
    + destruct (readdir_refs_spec fill (fuseStat fuse.S_IFDIR 0 (time_Now w)) lst w3)
        as (w4 & t4 & Hrun & Htr & _).
      rewrite Hrun. run_readdir.
      split; [intros errc [= <-]; reflexivity|]. split; [reflexivity|].
      intros Hex. exfalso. rewrite app_nil_r in Hex.
      apply (no_enum_failed t4 Htr). enum_inv Hex.
    + split; [intros errc [= <-]; reflexivity|]. split; [reflexivity|].
      intros _. split; reflexivity.
  - (* an owner *)
    destruct (fill "." _ 0 w) as [ok1 w1]; run_readdir.
    destruct (fill ".." _ 0 w1) as [ok2 w2]; run_readdir.
    destruct (GetRepositories (Some o) w2) as [[lst|err] w3]; run_readdir.
    + destruct (readdir_names_spec Repository_Name fill
                  (fuseStat fuse.S_IFDIR 0 (time_Now w)) lst w3)
        as (w4 & t4 & Hrun & Htr).
      rewrite Hrun. run_readdir.
      split; [intros errc [= <-]; reflexivity|]. split; [reflexivity|].
      intros Hex. exfalso. rewrite app_nil_r in Hex.
      apply (no_enum_failed t4 Htr). enum_inv Hex.
    + split; [intros errc [= <-]; reflexivity|]. split; [reflexivity|].
      intros _. split; reflexivity.
  - (* the root of the mount *)
    destruct (fill "." _ 0 w) as [ok1 w1]; run_readdir.
    destruct (fill ".." _ 0 w1) as [ok2 w2]; run_readdir.
    destruct (GetOwners w2) as [[lst|err] w3]; run_readdir.
    + destruct (readdir_names_spec Owner_Name fill
                  (fuseStat fuse.S_IFDIR 0 (time_Now w)) lst w3)
        as (w4 & t4 & Hrun & Htr).
      rewrite Hrun. run_readdir.
      split; [intros errc [= <-]; reflexivity|]. split; [reflexivity|].
      intros Hex. exfalso. rewrite app_nil_r in Hex.
      apply (no_enum_failed t4 Htr). enum_inv Hex.
    + split; [intros errc [= <-]; reflexivity|]. split; [reflexivity|].
      intros _. split; reflexivity.
Qed.

End Listing.

(** Concrete listings of [/alice/project] on the small provider. *)

Lemma populated_project : populated (P := demo.providers) 2 demo.project.
Proof.
  unfold populated, demo.project. cbn [owner repository ref entry].
  rewrite !is_Some_alt. intuition lia.
Qed.



Lemma Readdir_discards_enumeration_error_witness :
  let fs := demo.opened "/alice/project" (demo.mkWorld true 0) in
  let w := demo.mkWorld false 10 in
  openmap fs !! 0 = Some (Some demo.project) ∧
  Exists (λ ev, enum_failed ev = true)
         (Readdir (P := demo.providers) fs "/alice/project" demo.fill 0 0 w).2 ∧
  let '(out, _, tr) :=
    Readdir (P := demo.providers) fs "/alice/project" demo.fill 0 0 w in
  (∀ errc, out = Ok errc → errc = 0) ∧
  (ref demo.project = None → out = Ok 0) ∧
  (Exists (λ ev, enum_failed ev = true) tr →
   out = Ok 0 ∧ filled tr = ["."; ".."]).
Proof.
  cbv zeta. split; [vm_compute; reflexivity|]. split.
  - vm_compute. do 2 apply Exists_cons_tl. apply Exists_cons_hd. reflexivity.
  - apply (Readdir_discards_enumeration_error (P := demo.providers)
             (demo.opened "/alice/project" (demo.mkWorld true 0))
             "/alice/project" demo.fill 0 0 demo.project 2
             (demo.mkWorld false 10)).
    + vm_compute. reflexivity.
    + exact populated_project.
Defined.

(** ** [open] and [getattr], for their callers *)

Section Lookup_facts.
Context `{P : Providers}.

Lemma fuseErrc_errno (err : option error) : resolve_errno (fuseErrc err).
Proof. unfold resolve_errno. destruct err as [[|m]|]; cbn; auto. Qed.

(** Whatever the provider answers, a walk that returns returns one of
    three errnos. *)
Lemma openex_loop_errno (norm : bool) (cs : list string) :
  ∀ (i : nat) (obs : obstack) (lst : list string) (w w' : World)
    (errc : Z) (res : option obstack) (lst' : list string) (tr : list Event),
    openex_loop norm i cs obs lst w = (Ok (errc, res, lst'), w', tr) →
    resolve_errno errc.
Proof.
  induction cs as [|c cs IH]; intros i obs lst w w' errc res lst' tr.
  - cbn [openex_loop]. rewrite ret_run. intros [= <- _ _ _ _].
    left. reflexivity.
  - cbn [openex_loop]. rewrite bind_run.
    destruct (openex_step norm i c obs lst w) as [[[[[obs1 err] lst1]|] w1] t1];
      [|discriminate].
    destruct err as [e|].
    + rewrite bind_run.
      destruct (release obs1 w1) as [[[[]|] w2] t2]; [|discriminate].
      rewrite ret_run. intros [= <- _ _ _ _]. apply (fuseErrc_errno (Some e)).
    + destruct (openex_loop norm (S i) cs obs1 lst1 w1)
        as [[[[[errc2 res2] lst2]|] w2] t2] eqn:Hloop; [|discriminate].
      intros [= <- _ _ _ _]. eapply IH. exact Hloop.
Qed.

(** [open]: what [openex] guarantees, without the token list. *)
Lemma open_spec (fs : hubfs) (path : string) (w : World) :
  ∃ errc res w' tr,
    open fs path w = (Ok (errc, res), w', tr) ∧
    resolve_errno errc ∧
    match res with
    | None =>
        errc ≠ 0 ∧
        closed_owners tr = opened_owners tr ∧
        closed_repositories tr = opened_repositories tr
    | Some obs =>
        errc = 0 ∧
        populated (length (split (pathutil.Join [prefix fs; path]))) obs ∧
        closed_owners tr = [] ∧ closed_repositories tr = [] ∧
        held_owner obs = opened_owners tr ∧
        held_repository obs = opened_repositories tr
    end.
Proof.
  unfold open, openex.
  destruct (openex_loop_spec false (split (pathutil.Join [prefix fs; path]))
              0 obstack_zero _ w populated_zero eq_refl)
    as (errc & res & lst & w' & tr & Hrun & _ & _ & Hres).
  exists errc, res, w', tr. rewrite bind_run, Hrun, ret_run, app_nil_r.
  split; [reflexivity|]. split.
  - eapply openex_loop_errno. exact Hrun.
  - destruct res as [obs|]; cbn [held_owner held_repository obstack_zero
                                   owner repository app Nat.add] in Hres.
    + destruct Hres as (? & ? & _ & ? & ? & ? & ?). conjs; assumption.
    + destruct Hres as (Hne & _ & Hco & Hcr). auto.
Qed.

(** A depth-0 token with a dot in it, or [HEAD], is turned away by [open]
    before any call of the provider. *)
Lemma open_reserved_token (fs : hubfs) (path : string) (w : World)
      (c : string) (cs : list string) :
  split (pathutil.Join [prefix fs; path]) = c :: cs →
  has_byte "." c = true ∨ c = "HEAD" →
  open fs path w = (Ok (- fuse.ENOENT, None), w, []).
Proof.
  intros Htok Hc. unfold open, openex. rewrite Htok.
  cbn [openex_loop openex_step].
  assert (Hrej : negb (-1 =? strings.IndexFunc c is_dot) || String.eqb "HEAD" c = true).
  { destruct Hc as [Hdot| ->]; [|apply orb_true_r].
    apply orb_true_iff. left. apply negb_true_iff, Z.eqb_neq.
    pose proof (index_from_found c 0 ltac:(lia) Hdot) as Hge.
    unfold strings.IndexFunc. lia. }
  rewrite Hrej. reflexivity.
Qed.

(** [getattr] on the obstack of a resolved path, with that path: it
    returns; it opens and closes nothing; and it gives a target only for a
    symlink or a submodule. *)
Lemma getattr_spec (fs : hubfs) (obs : obstack) (path : string) (w : World) :
  populated (length (split (pathutil.Join [prefix fs; path]))) obs →
  ∃ stat target w' tr,
    getattr fs obs (entry obs) path w = (Ok (stat, target), w', tr) ∧
    opened_owners tr = [] ∧ closed_owners tr = [] ∧
    opened_repositories tr = [] ∧ closed_repositories tr = [] ∧
    (target ≠ "" →
     ∃ e, entry obs = Some e ∧ link_class (Entry_Mode e) ∧
          Size stat = Z.of_nat (String.length target)).
Proof.
  intros Hpop.
  pose proof (populated_inv _ _ Hpop) as (Io & Ir & If & Ie).
  unfold getattr. destruct (entry obs) as [e|] eqn:He.
  - assert (Hn : (4 ≤ length (split (pathutil.Join [prefix fs; path])))%nat).
    { destruct (le_lt_dec 4 (length (split (pathutil.Join [prefix fs; path]))))
        as [H|H]; [exact H|].
      assert (Some e = None) as [=] by (apply Ie; lia). }
    destruct (ref obs) as [rf|] eqn:Hrf;
      [|exfalso; assert (Hx : (length (split (pathutil.Join [prefix fs; path])) ≤ 2)%nat)
          by (apply If; reflexivity); lia].
    destruct (repository obs) as [repo|] eqn:Hrepo;
      [|exfalso; assert (Hx : (length (split (pathutil.Join [prefix fs; path])) ≤ 1)%nat)
          by (apply Ir; reflexivity); lia].
    unfold mbind, M_bind, mret, M_ret, deref, slice_from, call.
    destruct (Z.land (Entry_Mode e) fuse.S_IFMT =? fuse.S_IFLNK) eqn:Elnk.
    { do 4 eexists. split; [reflexivity|]. repeat (split; [reflexivity|]).
      intros _. exists e. split; [reflexivity|]. split; [|reflexivity].
      left. apply Z.eqb_eq. exact Elnk. }
    destruct (Z.land (Entry_Mode e) fuse.S_IFMT =? o0160000) eqn:Esub.
    { rewrite decide_True by lia.
      cbn -[split pathutil.Join strings.TrimPrefix strings.TrimSuffix
            String.append String.eqb fuseStat].
      destruct (GetModule repo (Some rf) _ true w) as [[module err] w1].
      cbn -[split pathutil.Join strings.TrimPrefix strings.TrimSuffix
            String.append String.eqb fuseStat].
      do 4 eexists. split; [reflexivity|]. repeat (split; [reflexivity|]).
      intros _. exists e. split; [reflexivity|]. split; [|reflexivity].
      right. apply Z.eqb_eq. exact Esub. }
    do 4 eexists. split; [reflexivity|]. repeat (split; [reflexivity|]).
    intros H. congruence.
  - do 4 eexists. split; [reflexivity|]. repeat (split; [reflexivity|]).
    intros H. congruence.
Qed.

End Lookup_facts.

(** ** [Readlink] and [Getattr] *)

Section Lookup_props.
Context `{P : Providers}.

(** X1.  [Readlink] always returns; it closes every owner and repository it
    opened; it returns errno zero exactly when it returns a target; and its
    errno is 0, [-ENOENT], [-EIO] or [-EINVAL]. *)
Theorem Readlink_returns_balanced (fs : hubfs) (path : string) (w : World) :
  ∃ errc target w' tr,
    Readlink fs path w = (Ok (errc, target), w', tr) ∧
    closed_owners tr = opened_owners tr ∧
    closed_repositories tr = opened_repositories tr ∧
    (errc = 0 ↔ target ≠ "") ∧
    (resolve_errno errc ∨ errc = - fuse.EINVAL).
Proof.
  unfold Readlink.
  destruct (open_spec fs path w) as (errc & res & w1 & t1 & Hopen & Herr & Hres).
  rewrite bind_run, Hopen.
  destruct res as [obs|].
  - destruct Hres as (-> & Hpop & Hco & Hcr & Hho & Hhr).
    cbn [Z.eqb negb deref]. rewrite bind_run, ret_run.
    destruct (getattr_spec fs obs path w1 Hpop)
      as (stat & target & w2 & t2 & Hget & Hoo2 & Hco2 & Hor2 & Hcr2 & _).
    rewrite bind_run, Hget.
    destruct (release_spec obs w2) as (w3 & t3 & Hrel & Hco3 & Hcr3 & Hoo3 & Hor3 & _).
    rewrite bind_run, Hrel, ret_run.
    do 4 eexists. split; [reflexivity|].
    rewrite !closed_owners_app, !opened_owners_app,
      !closed_repositories_app, !opened_repositories_app.
    rewrite Hco, Hcr, Hoo2, Hco2, Hor2, Hcr2, Hco3, Hcr3, Hoo3, Hor3, Hho, Hhr.
    cbn [closed_owners opened_owners closed_repositories opened_repositories
         flat_map app].
    rewrite !app_nil_r. split; [reflexivity|]. split; [reflexivity|].
    destruct (String.eqb "" target) eqn:E.
    + apply String.eqb_eq in E. subst target. split.
      * split; [discriminate | congruence].
      * right. reflexivity.
    + apply String.eqb_neq in E. split.
      * split; [intros _; congruence | reflexivity].
      * left. left. reflexivity.
  - destruct Hres as (Hne & Hco & Hcr).
    assert (E : (0 =? errc) = false) by (apply Z.eqb_neq; congruence).
    rewrite E. cbn [negb]. rewrite ret_run.
    do 4 eexists. split; [reflexivity|]. rewrite !app_nil_r.
    split; [exact Hco|]. split; [exact Hcr|]. split.
    + split; [congruence | congruence].
    + left. exact Herr.
Qed.

(** X2.  A path with fewer than four tokens (the mount root, an owner, a
    repository, a ref) is never a link: [Readlink] fails on it without a
    target, with [-EINVAL] when the path resolves. *)
Theorem Readlink_above_entries (fs : hubfs) (path : string) (w : World) :
  (length (split (pathutil.Join [prefix fs; path])) ≤ 3)%nat →
  ∃ errc w' tr,
    Readlink fs path w = (Ok (errc, ""), w', tr) ∧ errc ≠ 0 ∧
    ((∃ obs w1 t1, open fs path w = (Ok (0, Some obs), w1, t1)) →
     errc = - fuse.EINVAL).
Proof.
  intros Hshort. unfold Readlink.
  destruct (open_spec fs path w) as (errc & res & w1 & t1 & Hopen & Herr & Hres).
  rewrite bind_run, Hopen.
  destruct res as [obs|].
  - destruct Hres as (-> & Hpop & _).
    cbn [Z.eqb negb deref]. rewrite bind_run, ret_run.
    destruct (getattr_spec fs obs path w1 Hpop)
      as (stat & target & w2 & t2 & Hget & _ & _ & _ & _ & Hlink).
    assert (Htarget : target = "").
    { destruct (string_dec target "") as [|Hne]; [assumption|].
      destruct (Hlink Hne) as (e & He & _).
      pose proof (populated_inv _ _ Hpop) as (_ & _ & _ & Ie).
      rewrite (proj2 Ie Hshort) in He. discriminate. }
    subst target. rewrite bind_run, Hget.
    destruct (release_spec obs w2) as (w3 & t3 & Hrel & _).
    rewrite bind_run, Hrel, ret_run.
    do 3 eexists. split; [reflexivity|]. split; [discriminate|].
    intros _. reflexivity.
  - destruct Hres as (Hne & _).
    assert (E : (0 =? errc) = false) by (apply Z.eqb_neq; congruence).
    rewrite E. cbn [negb]. rewrite ret_run.
    do 3 eexists. split; [reflexivity|]. split; [exact Hne|].
    intros (obs & w2 & t2 & [=]).
Qed.

(** X3.  [Getattr] always returns, whatever the links it follows; its errno
    is 0, [-ENOENT] or [-EIO]; and it closes every owner and repository it
    opened, over all its retries. *)
Theorem Getattr_returns_balanced (fs : hubfs) (path : string) (stat : Stat_t)
        (h : Z) (w : World) :
  ∃ errc stat' w' tr,
    Getattr fs path stat h w = (Ok (errc, stat'), w', tr) ∧
    resolve_errno errc ∧
    closed_owners tr = opened_owners tr ∧
    closed_repositories tr = opened_repositories tr.
Proof.
  unfold Getattr. generalize (strings.HasSuffix path "/.") as resolve.
  generalize 16%nat as more. intros more resolve. revert path stat w.
  induction more as [|more IH]; intros path stat w.
  all: cbn [Getattr_retry];
    destruct (open_spec fs path w) as (errc & res & w1 & t1 & Hopen & Herr & Hres);
    rewrite bind_run, Hopen;
    (destruct res as [obs|];
     [ destruct Hres as (-> & Hpop & Hco & Hcr & Hho & Hhr);
       cbn [Z.eqb negb deref]; rewrite bind_run, ret_run;
       destruct (getattr_spec fs obs path w1 Hpop)
         as (stat1 & target & w2 & t2 & Hget & Hoo2 & Hco2 & Hor2 & Hcr2 & Hlink);
       rewrite bind_run, Hget;
       destruct (release_spec obs w2)
         as (w3 & t3 & Hrel & Hco3 & Hcr3 & Hoo3 & Hor3 & _);
       rewrite bind_run, Hrel
     | destruct Hres as (Hne & Hco & Hcr);
       assert (E : (0 =? errc) = false) by (apply Z.eqb_neq; congruence);
       rewrite E; cbn [negb]; rewrite ret_run;
       do 4 eexists; (split; [reflexivity|]); rewrite ?app_nil_r;
       split; [exact Herr|]; split; assumption ]).
  - (* no retry left *)
    destruct (resolve && negb (String.eqb "" target)); rewrite ret_run;
      do 4 eexists; (split; [reflexivity|]); (split; [left; reflexivity|]);
      rewrite !closed_owners_app, !opened_owners_app,
        !closed_repositories_app, !opened_repositories_app;
      rewrite Hco, Hcr, Hoo2, Hco2, Hor2, Hcr2, Hco3, Hcr3, Hoo3, Hor3, Hho, Hhr;
      cbn [closed_owners opened_owners closed_repositories opened_repositories
           flat_map app];
      rewrite ?app_nil_r; split; reflexivity.
  - destruct (resolve && negb (String.eqb "" target)) eqn:Ego.
    + apply andb_true_iff in Ego. destruct Ego as [_ Hne].
      apply negb_true_iff, String.eqb_neq in Hne.
      destruct target as [|c target']; [congruence|].
      rewrite bind_run.
      destruct (Ascii.eqb "/"%char c); rewrite ret_run;
        match goal with
        | |- context [Getattr_retry more fs resolve ?p stat1 w3] =>
            destruct (IH p stat1 w3)
              as (errc4 & stat4 & w4 & t4 & Hrec & Herr4 & Hco4 & Hcr4)
        end;
        rewrite Hrec; do 4 eexists; (split; [reflexivity|]);
        (split; [exact Herr4|]);
        rewrite !closed_owners_app, !opened_owners_app,
          !closed_repositories_app, !opened_repositories_app;
        rewrite Hco, Hcr, Hoo2, Hco2, Hor2, Hcr2, Hco3, Hcr3, Hoo3, Hor3, Hho, Hhr,
          Hco4, Hcr4;
        cbn [closed_owners opened_owners closed_repositories opened_repositories
             flat_map app];
        rewrite ?app_nil_r; split; reflexivity.
    + rewrite ret_run. do 4 eexists. split; [reflexivity|].
      split; [left; reflexivity|].
      rewrite !closed_owners_app, !opened_owners_app,
        !closed_repositories_app, !opened_repositories_app.
      rewrite Hco, Hcr, Hoo2, Hco2, Hor2, Hcr2, Hco3, Hcr3, Hoo3, Hor3, Hho, Hhr.
      cbn [closed_owners opened_owners closed_repositories opened_repositories
           flat_map app].
      rewrite ?app_nil_r. split; reflexivity.
Qed.

End Lookup_props.

(** ** Tokens, and the [/.] suffix of [Getattr] *)

Section Token_facts.

Lemma Split_snoc_dot (s : string) :
  strings.Split (s +:+ "/.") "/" = strings.Split s "/" ++ ["."].
Proof.
  induction s as [|a s IH]; [reflexivity|].
  change (String a s +:+ "/.") with (String a (s +:+ "/.")).
  rewrite !Split_cons, IH.
  destruct (Ascii.eqb "/"%char a); [reflexivity|].
  pose proof (Split_not_nil s) as Hne.
  destruct (strings.Split s "/"); [congruence | reflexivity].
Qed.

Lemma clean_elems_snoc_dot (rooted : bool) (elems out : list string) (dotdot : nat) :
  pathutil.clean_elems rooted (elems ++ ["."]) out dotdot =
  pathutil.clean_elems rooted elems out dotdot.
Proof.
  revert out dotdot. induction elems as [|e es IH]; intros out dotdot.
  - reflexivity.
  - cbn [app pathutil.clean_elems]. rewrite !IH. reflexivity.
Qed.

Lemma Clean_snoc_dot (s : string) :
  s ≠ "" → pathutil.Clean (s +:+ "/.") = pathutil.Clean s.
Proof.
  intros Hs. destruct s as [|a s]; [congruence|].
  assert (E1 : String.eqb (String a s +:+ "/.") "" = String.eqb (String a s) "")
    by reflexivity.
  assert (E2 : strings.HasPrefix (String a s +:+ "/.") "/" =
               strings.HasPrefix (String a s) "/").
  { unfold strings.HasPrefix.
    change (String a s +:+ "/.") with (String a (s +:+ "/.")).
    rewrite !prefix_slash. reflexivity. }
  unfold pathutil.Clean.
  rewrite E1, E2, Split_snoc_dot, clean_elems_snoc_dot. reflexivity.
Qed.

(** The tokens of [path + "/."] are those of [path]. *)
Lemma Join2_snoc_dot (pre path : string) :
  split (pathutil.Join [pre; path +:+ "/."]) = split (pathutil.Join [pre; path]).
Proof.
  cbn [pathutil.Join].
  destruct (String.eqb pre "") eqn:Epre.
  - destruct path as [|a path]; [reflexivity|].
    change (String.eqb (String a path +:+ "/.") "") with false.
    change (String.eqb (String a path) "") with false. cbv iota.
    cbn [strings.Join]. rewrite Clean_snoc_dot by discriminate. reflexivity.
  - apply String.eqb_neq in Epre.
    change (strings.Join [pre; path +:+ "/."] "/")
      with (pre +:+ "/" +:+ (path +:+ "/.")).
    change (strings.Join [pre; path] "/") with (pre +:+ "/" +:+ path).
    replace (pre +:+ "/" +:+ (path +:+ "/."))
      with ((pre +:+ "/" +:+ path) +:+ "/.")
      by (rewrite !append_assoc; reflexivity).
    rewrite Clean_snoc_dot; [reflexivity|].
    destruct pre; [congruence | discriminate].
Qed.

Lemma clean_elems_names (elems out : list string) (dotdot : nat) :
  Forall (λ p, has_byte "/" p = false) elems →
  Forall name_token out →
  Forall name_token (pathutil.clean_elems true elems out dotdot).
Proof.
  revert out dotdot.
  induction elems as [|e es IH]; intros out dotdot Hes Hout; simpl.
  - apply Forall_rev. exact Hout.
  - inversion Hes as [|? ? He Hes']; subst.
    destruct (String.eqb e "") eqn:E0; [apply IH; assumption|].
    destruct (String.eqb e ".") eqn:E1; [apply IH; assumption|].
    destruct (String.eqb e "..") eqn:E2.
    + destruct (dotdot <? length out)%nat; simpl.
      * apply IH; [assumption|]. destruct out; [constructor|].
        inversion Hout; assumption.
      * apply IH; assumption.
    + apply IH; [assumption|]. constructor; [|assumption].
      apply String.eqb_neq in E0, E1, E2. repeat split; assumption.
Qed.

Lemma name_token_clean (e : string) : name_token e → clean_elem e.
Proof. intros (H0 & _ & _ & Hs). split; assumption. Qed.

(** Splitting a rooted join of cleaned elements gives them back. *)
Lemma split_rooted_Join (out : list string) :
  Forall clean_elem out → split ("/" +:+ strings.Join out "/") = out.
Proof.
  intros Hout. destruct out as [|x xs]; [reflexivity|].
  unfold split.
  change ("/" +:+ strings.Join (x :: xs) "/")
    with ("" +:+ "/" +:+ strings.Join (x :: xs) "/").
  rewrite Split_app_slash by reflexivity.
  rewrite Split_Join;
    [| discriminate | eapply Forall_impl; [exact Hout | intros ? [_ ?]; assumption]].
  cbn [tail]. apply split_nonempty_tokens. exact Hout.
Qed.

(** X4.  Under a rooted mount prefix every token that [openex] hands to the
    provider is a name: never empty, never [.] or [..], never with a
    slash in it. *)
Theorem tokens_of_rooted_prefix_are_names (pre path : string) :
  strings.HasPrefix pre "/" = true →
  Forall name_token (split (pathutil.Join [pre; path])).
Proof.
  intros Hroot. destruct pre as [|a pre]; [discriminate|].
  unfold strings.HasPrefix in Hroot. rewrite prefix_slash in Hroot.
  apply Ascii.eqb_eq in Hroot. subst a.
  cbn [pathutil.Join]. change (String.eqb (String "/" pre) "") with false.
  cbv iota. unfold pathutil.Clean.
  change (strings.Join [String "/" pre; path] "/")
    with (String "/" (pre +:+ "/" +:+ path)).
  change (String.eqb (String "/" (pre +:+ "/" +:+ path)) "") with false.
  cbv iota. unfold strings.HasPrefix. rewrite prefix_slash.
  change (Ascii.eqb "/" "/") with true. cbv iota.
  pose proof (clean_elems_names _ [] 0
                (Split_no_slash (String "/" (pre +:+ "/" +:+ path)))
                (Forall_nil_2 _)) as Hout.
  rewrite split_rooted_Join; [exact Hout|].
  eapply Forall_impl; [exact Hout | exact name_token_clean].
Qed.

End Token_facts.

Section Getattr_props.
Context `{P : Providers}.

Lemma open_snoc_dot (fs : hubfs) (path : string) :
  open fs (path +:+ "/.") = open fs path.
Proof. unfold open, openex. rewrite Join2_snoc_dot. reflexivity. Qed.

Lemma getattr_snoc_dot (fs : hubfs) (obs : obstack) (e : option TreeEntry)
      (path : string) :
  getattr fs obs e (path +:+ "/.") = getattr fs obs e path.
Proof. unfold getattr. rewrite Join2_snoc_dot. reflexivity. Qed.

(** X5.  When [path] is not a link ([Readlink] fails on it), [Getattr] of
    [path + "/."] does what [Getattr] of [path] does: same errno, same
    stat, same calls. *)
Theorem Getattr_dot_of_non_link (fs : hubfs) (path : string) (stat : Stat_t)
        (h : Z) (w w' : World) (errc : Z) (target : string) (tr : list Event) :
  Readlink fs path w = (Ok (errc, target), w', tr) → errc ≠ 0 →
  Getattr fs (path +:+ "/.") stat h w = Getattr fs path stat h w.
Proof.
  intros Hlink Hne. unfold Getattr.
  generalize (strings.HasSuffix (path +:+ "/.") "/.") as r1.
  generalize (strings.HasSuffix path "/.") as r2. intros r2 r1.
  change 16%nat with (S 15). generalize 15%nat as more. intros more.
  cbn [Getattr_retry]. unfold Readlink in Hlink.
  rewrite !bind_run, open_snoc_dot. rewrite bind_run in Hlink.
  destruct (open fs path w) as [[[[e res]|] w1] t1]; [|reflexivity].
  destruct (negb (0 =? e)) eqn:Ee; [reflexivity|].
  apply negb_false_iff, Z.eqb_eq in Ee. subst e.
  rewrite !bind_run. rewrite bind_run in Hlink.
  destruct res as [obs|]; cbn [deref] in Hlink |- *; [|reflexivity].
  rewrite ret_run, !bind_run, getattr_snoc_dot.
  rewrite ret_run in Hlink. rewrite bind_run in Hlink.
  destruct (getattr fs obs (entry obs) path w1) as [[[[st tg]|] w2] t2];
    [|reflexivity].
  rewrite !bind_run. rewrite bind_run in Hlink.
  destruct (release obs w2) as [[[[]|] w3] t3]; [|reflexivity].
  rewrite ret_run in Hlink.
  destruct (String.eqb "" tg) eqn:Etg.
  - cbn [negb]. rewrite !andb_false_r. reflexivity.
  - exfalso. apply Hne. injection Hlink as <- _ _ _. reflexivity.
Qed.

(** X6.  [Getattr] of a path whose depth-0 token contains a dot or is
    [HEAD] answers [-ENOENT] with no provider call, leaving the stat as it
    was. *)
Theorem Getattr_rejects_dotted_and_HEAD (fs : hubfs) (path : string)
        (stat : Stat_t) (h : Z) (w : World) (c : string) (cs : list string) :
  split (pathutil.Join [prefix fs; path]) = c :: cs →
  has_byte "." c = true ∨ c = "HEAD" →
  Getattr fs path stat h w = (Ok (- fuse.ENOENT, stat), w, []).
Proof.
  intros Htok Hc. unfold Getattr.
  change 16%nat with (S 15). generalize 15%nat as more. intros more.
  cbn [Getattr_retry].
  rewrite bind_run, (open_reserved_token fs path w c cs Htok Hc).
  reflexivity.
Qed.

End Getattr_props.

(** ** The handle table, request after request *)

Section Table_props.
Context `{P : Providers}.

(** [Open] does what [Opendir] does: the flags are not looked at. *)
Lemma Open_is_Opendir (fs : hubfs) (path : string) (flags : Z) :
  Open fs path flags = Opendir fs path.
Proof. reflexivity. Qed.

(** [Opendir]: failure leaves the table alone, success binds the counter. *)
Lemma Opendir_spec (fs : hubfs) (path : string) (w : World) :
  ∃ errc h fs' w' tr,
    Opendir fs path w = (Ok (errc, h, fs'), w', tr) ∧
    ((errc ≠ 0 ∧ h = 0 ∧ fs' = fs ∧
      closed_owners tr = opened_owners tr ∧
      closed_repositories tr = opened_repositories tr)
     ∨
     (errc = 0 ∧ h = fh fs ∧
      ∃ obs,
        fs' = mkHubfs (prefix fs) (fh_next (fh fs))
                      (<[fh fs := Some obs]> (openmap fs)) ∧
        populated (length (split (pathutil.Join [prefix fs; path]))) obs ∧
        closed_owners tr = [] ∧ closed_repositories tr = [] ∧
        held_owner obs = opened_owners tr ∧
        held_repository obs = opened_repositories tr)).
Proof.
  unfold Opendir.
  destruct (open_spec fs path w) as (errc & res & w1 & t1 & Hopen & _ & Hres).
  rewrite bind_run, Hopen.
  destruct res as [obs|].
  - destruct Hres as (-> & Hpop & Hco & Hcr & Hho & Hhr).
    cbn [Z.eqb negb]. rewrite ret_run, app_nil_r.
    do 5 eexists. split; [reflexivity|]. right.
    split; [reflexivity|]. split; [reflexivity|].
    exists obs. conjs; try assumption; reflexivity.
  - destruct Hres as (Hne & Hco & Hcr).
    assert (E : (0 =? errc) = false) by (apply Z.eqb_neq; congruence).
    rewrite E. cbn [negb]. rewrite ret_run, app_nil_r.
    do 5 eexists. split; [reflexivity|]. left.
    conjs; try assumption; reflexivity.
Qed.

(** X7.  [Opendir] either fails, with a non-zero errno, the handle table
    as it was and everything it opened closed again; or it succeeds, and
    binds the value of the counter to an obstack populated to the depth of
    the path, which holds what was opened, and moves the counter on. *)
Theorem Opendir_installs_or_fails (fs : hubfs) (path : string) (w : World) :
  ∃ errc h fs' w' tr,
    Opendir fs path w = (Ok (errc, h, fs'), w', tr) ∧
    ((errc ≠ 0 ∧ h = 0 ∧ fs' = fs ∧
      closed_owners tr = opened_owners tr ∧
      closed_repositories tr = opened_repositories tr)
     ∨
     (errc = 0 ∧ h = fh fs ∧
      ∃ obs,
        fs' = mkHubfs (prefix fs) (fh_next (fh fs))
                      (<[fh fs := Some obs]> (openmap fs)) ∧
        populated (length (split (pathutil.Join [prefix fs; path]))) obs ∧
        closed_owners tr = [] ∧ closed_repositories tr = [] ∧
        held_owner obs = opened_owners tr ∧
        held_repository obs = opened_repositories tr)).
Proof. exact (Opendir_spec fs path w). Qed.

(** X8.  A handle that is not in the table: [Readdir], [Releasedir] and
    [Release] answer [-ENOENT], call neither [fill] nor the provider, and
    leave the table as it is. *)
Theorem unknown_handle_is_ENOENT (fs : hubfs) (path : string) (fill : filler)
        (ofst h : Z) (w : World) :
  openmap fs !! h = None →
  Readdir fs path fill ofst h w = (Ok (- fuse.ENOENT), w, []) ∧
  Releasedir fs path h w = (Ok (- fuse.ENOENT, fs), w, []) ∧
  Release fs path h w = (Ok (- fuse.ENOENT, fs), w, []).
Proof.
  intros Hnone. unfold Readdir, Releasedir, Release. rewrite Hnone.
  repeat split.
Qed.

(** X9.  A successful [Releasedir] takes the handle, and only the handle,
    out of the table and leaves the counter alone; the handle is then
    unknown: a second [Releasedir] answers [-ENOENT]. *)
Theorem Releasedir_removes_handle (fs fs' : hubfs) (path path' : string)
        (h : Z) (w w' w'' : World) (tr : list Event) :
  Releasedir fs path h w = (Ok (0, fs'), w', tr) →
  openmap fs' = delete h (openmap fs) ∧
  fh fs' = fh fs ∧ prefix fs' = prefix fs ∧
  Releasedir fs' path' h w'' = (Ok (- fuse.ENOENT, fs'), w'', []).
Proof.
  unfold Releasedir at 1.
  destruct (openmap fs !! h) as [[obs|]|] eqn:Hlook.
  - rewrite bind_run. cbn [deref]. rewrite ret_run, bind_run.
    destruct (release obs w) as [[[[]|] w1] t1]; [|discriminate].
    rewrite ret_run. intros [= <- _ _].
    cbn [openmap fh prefix]. repeat split.
    unfold Releasedir. cbn [openmap]. rewrite lookup_delete_eq. reflexivity.
  - rewrite bind_run. cbn [deref]. discriminate.
  - rewrite ret_run. discriminate.
Qed.

(** X10.  Opening and then releasing brings the table back: after
    [Opendir] and [Releasedir] of the handle it gave, the table binds what
    it bound before, only the counter has moved, and every owner and
    repository opened has been closed. *)
Theorem Opendir_Releasedir_round_trip (fs fs1 : hubfs) (path path' : string)
        (h : Z) (w w1 : World) (t1 : list Event) :
  openmap fs !! fh fs = None →
  Opendir fs path w = (Ok (0, h, fs1), w1, t1) →
  ∃ w2 t2,
    Releasedir fs1 path' h w1 =
      (Ok (0, mkHubfs (prefix fs) (fh_next (fh fs)) (openmap fs)), w2, t2) ∧
    closed_owners (t1 ++ t2) = opened_owners (t1 ++ t2) ∧
    closed_repositories (t1 ++ t2) = opened_repositories (t1 ++ t2).
Proof.
  intros Hfree Hopen.
  destruct (Opendir_spec fs path w)
    as (errc & h0 & fs0 & w0 & t0 & Hrun & Hcase).
  rewrite Hopen in Hrun. injection Hrun as <- <- <- <- <-.
  destruct Hcase as [(Hne & _)|(_ & -> & obs & -> & _ & Hco & Hcr & Hho & Hhr)];
    [congruence|].
  unfold Releasedir. cbn [openmap fh prefix]. rewrite lookup_insert_eq.
  rewrite bind_run. cbn [deref]. rewrite ret_run, bind_run.
  destruct (release_spec obs w1) as (w2 & t2 & Hrel & Hco2 & Hcr2 & Hoo2 & Hor2 & _).
  rewrite Hrel, ret_run. cbn [app]. rewrite app_nil_r.
  rewrite delete_insert_id by exact Hfree.
  exists w2, t2. split; [reflexivity|].
  rewrite !closed_owners_app, !opened_owners_app,
    !closed_repositories_app, !opened_repositories_app.
  rewrite Hco, Hcr, Hco2, Hcr2, Hoo2, Hor2, Hho, Hhr, !app_nil_r.
  split; reflexivity.
Qed.

(** X11.  [Release] closes in a fixed order: the reader of the obstack if
    it has one that can be closed, then the repository, then the owner;
    nil slots are skipped.  It answers zero and takes the handle out of the
    table. *)
Theorem Release_closes_in_order (fs : hubfs) (path : string) (h : Z)
        (obs : obstack) (w : World) :
  openmap fs !! h = Some (Some obs) →
  ∃ w',
    Release fs path h w =
      (Ok (0, mkHubfs (prefix fs) (fh fs) (delete h (openmap fs))), w',
       match reader obs with
       | Some rd => match Reader_Close rd with
                    | Some _ => [EvReaderClose rd]
                    | None => []
                    end
       | None => []
       end
       ++ match repository obs with
          | Some _ => [EvCloseRepository (repository obs)]
          | None => []
          end
       ++ match owner obs with
          | Some _ => [EvCloseOwner (owner obs)]
          | None => []
          end).
Proof.
  intros Hlook. unfold Release, release. rewrite Hlook.
  unfold deref, call_, mbind, M_bind, mret, M_ret.
  destruct (reader obs) as [rd|]; [destruct (Reader_Close rd) as [close|]|];
    destruct (repository obs) as [r|]; destruct (owner obs) as [o|];
    cbn [app]; eexists; reflexivity.
Qed.

(** What a request keeps of a well-formed table. *)
Lemma serve_table_ok (fs fs' : hubfs) (rq : request) (w w' : World)
      (h : option Z) (tr : list Event) :
  table_ok fs → fh fs < 2 ^ 64 - 1 →
  serve fs rq w = (Ok (fs', h), w', tr) →
  table_ok fs' ∧ fh fs ≤ fh fs' ≤ fh fs + 1.
Proof.
  intros [Hrange Htable] Hroom.
  assert (Hnext : fh_next (fh fs) = fh fs + 1).
  { unfold fh_next. apply Z.mod_small. lia. }
  assert (Hsame : table_ok fs ∧ fh fs ≤ fh fs ≤ fh fs + 1).
  { split; [split; assumption | lia]. }
  assert (Hins : ∀ path w,
    ∀ errc k fs1 w1 t1, Opendir fs path w = (Ok (errc, k, fs1), w1, t1) →
    table_ok fs1 ∧ fh fs ≤ fh fs1 ≤ fh fs + 1).
  { intros path v errc k fs1 w1 t1 Hrun.
    destruct (Opendir_spec fs path v)
      as (errc0 & h0 & fs0 & w0 & t0 & Hrun0 & Hcase).
    rewrite Hrun in Hrun0. injection Hrun0 as <- <- <- <- <-.
    destruct Hcase as [(_ & _ & -> & _)|(_ & _ & obs & -> & Hpop & _)];
      [exact Hsame|].
    unfold table_ok. cbn [fh openmap]. rewrite Hnext. split; [|lia].
    split; [lia|]. intros k0 o Hk0.
    apply lookup_insert_Some in Hk0.
    destruct Hk0 as [[<- <-]|[Hne Hk0]].
    - split; [lia|]. eauto.
    - destruct (Htable k0 o Hk0) as [Hlt Hobs]. split; [lia | exact Hobs]. }
  assert (Hdel : ∀ k, table_ok (mkHubfs (prefix fs) (fh fs) (delete k (openmap fs)))).
  { intros k. unfold table_ok. cbn [fh openmap].
    split; [exact Hrange|]. intros k0 o Hk0.
    apply lookup_delete_Some in Hk0. destruct Hk0 as [_ Hk0].
    exact (Htable k0 o Hk0). }
  destruct rq as [path|path|path fill ofst k|path k|path flags|path k];
    unfold serve.
  - rewrite bind_run. destruct (Readpath fs path w) as [[[r|] w1] t1];
      [|discriminate]. rewrite ret_run. intros [= <- _ _ _]. exact Hsame.
  - rewrite bind_run.
    destruct (Opendir fs path w) as [[[[[errc k] fs1]|] w1] t1] eqn:Hrun;
      [|discriminate].
    rewrite ret_run. intros [= <- _ _ _]. eapply Hins. exact Hrun.
  - rewrite bind_run. destruct (Readdir fs path fill ofst k w) as [[[r|] w1] t1];
      [|discriminate]. rewrite ret_run. intros [= <- _ _ _]. exact Hsame.
  - rewrite bind_run. unfold Releasedir.
    destruct (openmap fs !! k) as [[obs|]|].
    + rewrite bind_run. cbn [deref]. rewrite ret_run, bind_run.
      destruct (release obs w) as [[[r|] w1] t1]; [|discriminate].
      rewrite ret_run, ret_run. intros [= <- _ _ _].
      split; [apply Hdel | cbn [fh]; lia].
    + rewrite bind_run. cbn [deref]. unfold panic. discriminate.
    + rewrite ret_run, ret_run. intros [= <- _ _ _]. exact Hsame.
  - rewrite bind_run. rewrite Open_is_Opendir.
    destruct (Opendir fs path w) as [[[[[errc k] fs1]|] w1] t1] eqn:Hrun;
      [|discriminate].
    rewrite ret_run. intros [= <- _ _ _]. eapply Hins. exact Hrun.
  - rewrite bind_run. unfold Release.
    destruct (openmap fs !! k) as [[obs|]|].
    + rewrite bind_run. cbn [deref]. rewrite ret_run, bind_run.
      match goal with
      | |- context [match ?m w with _ => _ end] =>
          destruct (m w) as [[[r|] w1] t1]; [|discriminate]
      end.
      rewrite bind_run.
      destruct (release obs w1) as [[[r'|] w2] t2]; [|discriminate].
      rewrite ret_run, ret_run. intros [= <- _ _ _].
      split; [apply Hdel | cbn [fh]; lia].
    + rewrite bind_run. cbn [deref]. unfold panic. discriminate.
    + rewrite ret_run, ret_run. intros [= <- _ _ _]. exact Hsame.
Qed.

Lemma run_table_ok (rqs : list request) :
  ∀ (fs fs' : hubfs) (w w' : World),
    table_ok fs → fh fs + Z.of_nat (length rqs) < 2 ^ 64 →
    run fs rqs w = (Ok fs', w') →
    table_ok fs' ∧ fh fs' ≤ fh fs + Z.of_nat (length rqs).
Proof.
  induction rqs as [|rq rqs IH]; intros fs fs' w w' Hok Hroom.
  - cbn [run]. intros [= <- _]. split; [exact Hok | cbn; lia].
  - cbn [run]. cbn [length] in Hroom.
    destruct (serve fs rq w) as [[[[fs1 h]|] w1] t1] eqn:Hserve; [|discriminate].
    destruct (serve_table_ok _ _ _ _ _ _ _ Hok ltac:(lia) Hserve) as [Hok1 Hfh1].
    intros Hrun.
    destruct (IH fs1 fs' w1 w' Hok1 ltac:(lia) Hrun) as [Hok' Hfh'].
    split; [exact Hok'|]. cbn [length]. lia.
Qed.

Lemma table_ok_new (c : Config) : table_ok (new c).
Proof.
  split; [cbn; lia|]. cbn [new openmap]. intros k o Hk.
  rewrite lookup_empty in Hk. discriminate.
Qed.

(** X12.  In a process that has served fewer than [2^64] requests, every
    handle in the table is below the counter, so that the handle issued
    next is not in use, and every handle is bound to an obstack (never to
    nil) that is populated to some depth. *)
Theorem live_handles_below_counter (c : Config) (rqs : list request)
        (fs : hubfs) (w w' : World) :
  Z.of_nat (length rqs) < 2 ^ 64 →
  run (new c) rqs w = (Ok fs, w') →
  openmap fs !! fh fs = None ∧
  ∀ (k : Z) (o : option obstack),
    openmap fs !! k = Some o →
    0 ≤ k < fh fs ∧ ∃ obs n, o = Some obs ∧ populated n obs.
Proof.
  intros Hlen Hrun.
  destruct (run_table_ok rqs (new c) fs w w' (table_ok_new c)
              ltac:(cbn; lia) Hrun) as [[_ Htable] _].
  split; [|exact Htable].
  destruct (openmap fs !! fh fs) as [o|] eqn:Hk; [|reflexivity].
  destruct (Htable _ _ Hk) as [Hlt _]. lia.
Qed.

End Table_props.

(** ** The listings of the root, of an owner and of a tree *)

Section Listing_props.
Context `{P : Providers}.







End Listing_props.

(** ** Names of refs, and what the resolver gives back *)

Section Name_facts.

Lemma prefix_append (p x : string) : String.prefix p (p +:+ x) = true.
Proof.
  induction p as [|a p IH]; [destruct x; reflexivity|].
  change (String.prefix (String a p) (String a p +:+ x))
    with (if ascii_dec a a then String.prefix p (p +:+ x) else false).
  destruct (ascii_dec a a); [exact IH | congruence].
Qed.

Lemma length_append (p x : string) :
  String.length (p +:+ x) = (String.length p + String.length x)%nat.
Proof.
  induction p as [|a p IH]; [reflexivity|].
  change (String a p +:+ x) with (String a (p +:+ x)).
  cbn [String.length]. rewrite IH. reflexivity.
Qed.

Lemma substring_whole (x : string) : String.substring 0 (String.length x) x = x.
Proof.
  induction x as [|a x IH]; [reflexivity|].
  cbn [String.length String.substring]. rewrite IH. reflexivity.
Qed.

Lemma substring_append (p x : string) (m : nat) :
  String.substring (String.length p) m (p +:+ x) = String.substring 0 m x.
Proof.
  induction p as [|a p IH]; [reflexivity|].
  change (String a p +:+ x) with (String a (p +:+ x)).
  cbn [String.length String.substring]. exact IH.
Qed.

(** Trimming a prefix that was put in front gives the rest back. *)
Lemma TrimPrefix_append (p x : string) : strings.TrimPrefix (p +:+ x) p = x.
Proof.
  unfold strings.TrimPrefix, strings.HasPrefix. rewrite prefix_append.
  rewrite substring_append, length_append.
  replace (String.length p + String.length x - String.length p)%nat
    with (String.length x) by lia.
  apply substring_whole.
Qed.

Lemma ReplaceAll_no_slash (s : string) :
  has_byte "/" (strings.ReplaceAll s "/" " ") = false.
Proof.
  induction s as [|a s IH]; [reflexivity|].
  rewrite ReplaceAll_cons. cbn [has_byte].
  destruct (Ascii.eqb "/"%char a) eqn:E; rewrite IH.
  - reflexivity.
  - rewrite E. reflexivity.
Qed.

Lemma spaces_of_slashes_back (x : string) :
  has_byte " " x = false →
  Decode (strings.ReplaceAll x "/" " ") = x.
Proof.
  unfold Decode. induction x as [|a x IH]; [reflexivity|].
  cbn [has_byte]. intros [Ha Hx]%orb_false_iff.
  rewrite ReplaceAll_cons.
  destruct (Ascii.eqb "/"%char a) eqn:Esl.
  - apply Ascii.eqb_eq in Esl. subst a.
    rewrite ReplaceAll_cons. cbn [Ascii.eqb Bool.eqb]. cbv iota.
    rewrite (IH Hx). reflexivity.
  - rewrite ReplaceAll_cons, Ha, (IH Hx). reflexivity.
Qed.

(** X16.  When the provider answers the ref it was asked for, normalising
    gives the token back: for a filename without ['/'], encoding
    [refs/heads/] or [refs/tags/] followed by its decoded form is the
    filename. *)
Theorem Encode_of_looked_up_ref (f : string) :
  has_byte "/" f = false →
  Encode ("refs/heads/" +:+ Decode f) = f ∧
  Encode ("refs/tags/" +:+ Decode f) = f.
Proof.
  intros Hf. unfold Encode. split.
  - rewrite eqb_TrimPrefix by discriminate.
    unfold strings.HasPrefix at 1. rewrite prefix_append. cbn [negb].
    rewrite TrimPrefix_append. apply slashes_of_spaces_back. exact Hf.
  - rewrite eqb_TrimPrefix by discriminate.
    change (strings.HasPrefix ("refs/tags/" +:+ Decode f) "refs/heads/")
      with false.
    cbn [negb]. rewrite eqb_TrimPrefix by discriminate.
    unfold strings.HasPrefix at 1. rewrite prefix_append. cbn [negb].
    rewrite TrimPrefix_append. apply slashes_of_spaces_back. exact Hf.
Qed.

(** X17.  A normalised ref token never contains a slash. *)
Theorem Encode_has_no_slash (r : string) : has_byte "/" (Encode r) = false.
Proof. unfold Encode. apply ReplaceAll_no_slash. Qed.

End Name_facts.

Section Name_props.
Context `{P : Providers}.

(** X18.  The name under which [Readdir] lists a head ref has no slash, and
    when the rest of the ref name has no space, decoding the listed name
    and putting [refs/heads/] in front, which is the first lookup of
    [openex], gives the name of the ref. *)
Theorem listed_head_resolves_back (r : Ref) (x : string) :
  Ref_Name r = "refs/heads/" +:+ x →
  ∃ n, heads_listing [r] = [n] ∧
       has_byte "/" n = false ∧
       (has_byte " " x = false → "refs/heads/" +:+ Decode n = Ref_Name r).
Proof.
  intros Hname. rewrite heads_listing_cons, Hname.
  unfold strings.HasPrefix. rewrite prefix_append, TrimPrefix_append.
  eexists. split; [reflexivity|]. split; [apply ReplaceAll_no_slash|].
  intros Hx. rewrite spaces_of_slashes_back by exact Hx. reflexivity.
Qed.

(** X19.  [openex] gives back as many tokens as the path has, whatever it
    normalised; without normalisation it gives back the tokens themselves;
    and its errno is 0, [-ENOENT] or [-EIO]. *)
Theorem openex_keeps_token_count (fs : hubfs) (path : string) (norm : bool)
        (w : World) :
  ∃ errc res lst w' tr,
    openex fs path norm w = (Ok (errc, res, lst), w', tr) ∧
    length lst = length (split (pathutil.Join [prefix fs; path])) ∧
    (norm = false → lst = split (pathutil.Join [prefix fs; path])) ∧
    resolve_errno errc.
Proof.
  unfold openex.
  destruct (openex_loop_spec norm (split (pathutil.Join [prefix fs; path]))
              0 obstack_zero _ w populated_zero eq_refl)
    as (errc & res & lst & w' & tr & Hrun & Hk & Hlst & _).
  exists errc, res, lst, w', tr. split; [exact Hrun|].
  split; [|split].
  - rewrite Hlst. destruct norm; [|reflexivity].
    rewrite !length_app, length_drop, length_take. lia.
  - intros ->. exact Hlst.
  - eapply openex_loop_errno. exact Hrun.
Qed.

(** X20.  [Readpath] closes every owner and repository it opened, whether
    the resolution succeeded or failed partway. *)
Theorem Readpath_releases (fs : hubfs) (path : string) (w : World) :
  ∃ target w' tr,
    Readpath fs path w = (Ok (0, target), w', tr) ∧
    closed_owners tr = opened_owners tr ∧
    closed_repositories tr = opened_repositories tr.
Proof.
  unfold Readpath, openex.
  destruct (openex_loop_spec true (split (pathutil.Join [prefix fs; path]))
              0 obstack_zero _ w populated_zero eq_refl)
    as (errc & res & lst & w1 & tr1 & Hrun & _ & _ & Hres).
  rewrite bind_run, Hrun.
  destruct res as [obs|].
  - destruct Hres as (-> & _ & _ & Hco & Hcr & Hho & Hhr).
    cbn [held_owner held_repository obstack_zero owner repository app] in Hho, Hhr.
    destruct (release_spec obs w1) as (w2 & t2 & Hrel & Hco2 & Hcr2 & Hoo2 & Hor2 & _).
    cbn [Z.eqb deref]. rewrite bind_run, bind_run, ret_run.
    cbn [app]. rewrite Hrel, ret_run, app_nil_r.
    do 3 eexists. split; [reflexivity|].
    rewrite !closed_owners_app, !opened_owners_app,
      !closed_repositories_app, !opened_repositories_app.
    rewrite Hco, Hcr, Hco2, Hcr2, Hoo2, Hor2, Hho, Hhr, !app_nil_r.
    split; reflexivity.
  - destruct Hres as (Hne & _ & Hco & Hcr).
    cbn [held_owner held_repository obstack_zero owner repository app] in Hco, Hcr.
    assert (E : (0 =? errc) = false) by (apply Z.eqb_neq; congruence).
    rewrite E, bind_run, ret_run, ret_run, !app_nil_r.
    do 3 eexists. split; [reflexivity|]. split; assumption.
Qed.

(** X21.  [getattr] of a submodule entry slices the tokens of its path from
    the third on: it panics exactly when the path has fewer than three
    tokens. *)
Theorem getattr_submodule_needs_three_tokens (fs : hubfs) (obs : obstack)
        (e : TreeEntry) (rf : Ref) (repo : Repository) (path : string)
        (w : World) :
  ref obs = Some rf → repository obs = Some repo →
  submodule_class (Entry_Mode e) →
  ((getattr fs obs (Some e) path w).1.1 = Panic ↔
   (length (split (pathutil.Join [prefix fs; path])) < 3)%nat).
Proof.
  intros Href Hrepo Hsub. unfold getattr. rewrite Href, Hrepo.
  unfold submodule_class in Hsub. rewrite Hsub.
  change (o0160000 =? fuse.S_IFLNK) with false. rewrite Z.eqb_refl.
  unfold slice_from, deref, call, mbind, M_bind, mret, M_ret.
  destruct (decide (3 ≤ length (split (pathutil.Join [prefix fs; path])))%nat)
    as [Hge|Hlt].
  - cbn -[split pathutil.Join strings.TrimPrefix strings.TrimSuffix
          String.append String.eqb fuseStat].
    destruct (GetModule repo (Some rf) _ true w) as [[module err] w1].
    cbn -[split pathutil.Join strings.TrimPrefix strings.TrimSuffix
          String.append String.eqb fuseStat].
    split; [intros H; discriminate H | intros H; lia].
  - split; [intros _; lia | intros _; reflexivity].
Qed.

End Name_props.

(** ** Retries and attributes *)

Section Bounds.
Context `{P : Providers}.

Lemma held_owner_length (obs : obstack) : (length (held_owner obs) ≤ 1)%nat.
Proof. unfold held_owner. destruct (owner obs); cbn; lia. Qed.

Lemma held_repository_length (obs : obstack) :
  (length (held_repository obs) ≤ 1)%nat.
Proof. unfold held_repository. destruct (repository obs); cbn; lia. Qed.

(** A walk opens an owner only when its obstack holds none, and likewise a
    repository. *)
Lemma openex_loop_opens_once (norm : bool) (cs : list string) :
  ∀ (i : nat) (obs : obstack) (lst : list string) (w w' : World)
    (r : Z * option obstack * list string) (tr : list Event),
    populated i obs → length lst = (i + length cs)%nat →
    openex_loop norm i cs obs lst w = (Ok r, w', tr) →
    (length (held_owner obs) + length (opened_owners tr) ≤ 1)%nat ∧
    (length (held_repository obs) + length (opened_repositories tr) ≤ 1)%nat.
Proof.
  induction cs as [|c cs IH]; intros i obs lst w w' r tr Hpop Hlen.
  - cbn [openex_loop]. rewrite ret_run. intros [= _ _ <-].
    cbn [opened_owners opened_repositories flat_map length].
    pose proof (held_owner_length obs). pose proof (held_repository_length obs).
    lia.
  - cbn [length] in Hlen.
    destruct (openex_step_spec norm i c obs lst w Hpop ltac:(lia))
      as (obs1 & err & lst1 & w1 & t1 & Hstep & _ & _ & Hho & Hhr & Herr).
    pose proof (held_owner_length obs1) as Lo.
    pose proof (held_repository_length obs1) as Lr.
    rewrite Hho, length_app in Lo. rewrite Hhr, length_app in Lr.
    cbn [openex_loop]. rewrite bind_run, Hstep.
    destruct err as [e|].
    + destruct (release_spec obs1 w1)
        as (w2 & t2 & Hrel & _ & _ & Hoo2 & Hor2 & _).
      rewrite bind_run, Hrel, ret_run. intros [= _ _ <-].
      rewrite !opened_owners_app, !opened_repositories_app, Hoo2, Hor2.
      cbn [opened_owners opened_repositories flat_map app].
      rewrite !app_nil_r. lia.
    + destruct Herr as (Hpop1 & n & _ & ->).
      assert (Hlen1 : length (if norm then <[i:=n]> lst else lst)
                      = (S i + length cs)%nat).
      { destruct norm; rewrite ?length_insert; lia. }
      destruct (openex_loop norm (S i) cs obs1 _ w1)
        as [[[r2|] w2] t2] eqn:Hloop; [|discriminate].
      destruct (IH _ _ _ _ _ _ _ Hpop1 Hlen1 Hloop) as [Ho Hr].
      intros [= _ _ <-].
      rewrite opened_owners_app, opened_repositories_app, !length_app.
      rewrite Hho, length_app in Ho. rewrite Hhr, length_app in Hr. lia.
Qed.

Lemma open_opens_once (fs : hubfs) (path : string) (w w' : World)
      (r : Z * option obstack) (tr : list Event) :
  open fs path w = (Ok r, w', tr) →
  (length (opened_owners tr) ≤ 1)%nat ∧
  (length (opened_repositories tr) ≤ 1)%nat.
Proof.
  unfold open, openex. rewrite bind_run.
  destruct (openex_loop false 0 (split (pathutil.Join [prefix fs; path]))
              obstack_zero (split (pathutil.Join [prefix fs; path])) w)
    as [[[[[errc res] lst]|] w1] t1] eqn:Hloop; [|discriminate].
  rewrite ret_run, app_nil_r. intros [= _ _ <-].
  destruct (openex_loop_opens_once _ _ _ _ _ _ _ _ _ populated_zero eq_refl Hloop)
    as [Ho Hr].
  cbn [held_owner held_repository obstack_zero owner repository length] in Ho, Hr.
  lia.
Qed.

Lemma Getattr_retry_opens (fs : hubfs) (resolve : bool) (more : nat) :
  ∀ (path : string) (stat : Stat_t) (w w' : World) (r : Z * Stat_t)
    (tr : list Event),
    Getattr_retry more fs resolve path stat w = (Ok r, w', tr) →
    (length (opened_owners tr) ≤ S more)%nat ∧
    (length (opened_repositories tr) ≤ S more)%nat.
Proof.
  induction more as [|more IH]; intros path stat w w' r tr.
  all: cbn [Getattr_retry];
    destruct (open_spec fs path w) as (errc & res & w1 & t1 & Hopen & _ & Hres);
    destruct (open_opens_once _ _ _ _ _ _ Hopen) as [Ho1 Hr1];
    rewrite bind_run, Hopen;
    (destruct res as [obs|];
     [ destruct Hres as (-> & Hpop & _);
       cbn [Z.eqb negb deref]; rewrite bind_run, ret_run;
       destruct (getattr_spec fs obs path w1 Hpop)
         as (stat1 & target & w2 & t2 & Hget & Hoo2 & _ & Hor2 & _ & _);
       rewrite bind_run, Hget;
       destruct (release_spec obs w2)
         as (w3 & t3 & Hrel & _ & _ & Hoo3 & Hor3 & _);
       rewrite bind_run, Hrel
     | destruct Hres as (Hne & _);
       assert (E : (0 =? errc) = false) by (apply Z.eqb_neq; congruence);
       rewrite E; cbn [negb]; rewrite ret_run, ?app_nil_r;
       intros [= _ _ <-]; lia ]).
  - destruct (resolve && negb (String.eqb "" target)); rewrite ret_run;
      intros [= _ _ <-];
      rewrite !opened_owners_app, !opened_repositories_app, Hoo2, Hor2, Hoo3, Hor3;
      cbn [opened_owners opened_repositories flat_map app];
      rewrite ?app_nil_r; lia.
  - destruct (resolve && negb (String.eqb "" target)).
    + rewrite bind_run.
      destruct target as [|c target'];
        [cbn [panic]; unfold panic; discriminate|].
      destruct (Ascii.eqb "/"%char c); rewrite ret_run;
        match goal with
        | |- context [Getattr_retry more fs resolve ?p stat1 w3] =>
            destruct (Getattr_retry more fs resolve p stat1 w3)
              as [[[r4|] w4] t4] eqn:Hrec; [|discriminate];
            destruct (IH _ _ _ _ _ _ Hrec) as [Ho4 Hr4]
        end;
        intros [= _ _ <-];
        rewrite !opened_owners_app, !opened_repositories_app, Hoo2, Hor2, Hoo3, Hor3;
        cbn [opened_owners opened_repositories flat_map app];
        rewrite ?app_nil_r, !length_app; lia.
    + rewrite ret_run. intros [= _ _ <-].
      rewrite !opened_owners_app, !opened_repositories_app, Hoo2, Hor2, Hoo3, Hor3.
      cbn [opened_owners opened_repositories flat_map app].
      rewrite ?app_nil_r. lia.
Qed.

(** X22.  [Getattr] follows at most sixteen links: whatever the links of the
    provider, one call opens at most seventeen owners and seventeen
    repositories. *)
Theorem Getattr_follows_at_most_16_links (fs : hubfs) (path : string)
        (stat stat' : Stat_t) (h errc : Z) (w w' : World) (tr : list Event) :
  Getattr fs path stat h w = (Ok (errc, stat'), w', tr) →
  (length (opened_owners tr) ≤ 17)%nat ∧
  (length (opened_repositories tr) ≤ 17)%nat.
Proof. unfold Getattr. apply Getattr_retry_opens. Qed.

(** X23.  The modes that [fuseStat] writes are three: a directory is
    [S_IFDIR | 0755], a symlink or a submodule is [S_IFLNK | 0777], and
    everything else is [S_IFREG | 0755]; the link count is one, the size is
    the size given, and the four times are the time given. *)
Theorem fuseStat_writes_three_modes (mode size : Z) (t : Time) :
  let stat := fuseStat mode size t in
  (Mode stat = (if Z.land mode fuse.S_IFMT =? fuse.S_IFDIR
                then Z.lor fuse.S_IFDIR o0755
                else if (Z.land mode fuse.S_IFMT =? fuse.S_IFLNK)
                        || (Z.land mode fuse.S_IFMT =? o0160000)
                     then Z.lor fuse.S_IFLNK o0777
                     else Z.lor fuse.S_IFREG o0755)) ∧
  Nlink stat = 1 ∧ Size stat = size ∧
  Atim stat = NewTimespec t ∧ Mtim stat = NewTimespec t ∧
  Ctim stat = NewTimespec t ∧ Birthtim stat = NewTimespec t.
Proof.
  cbv zeta. unfold fuseStat. cbn [Mode Nlink Size Atim Mtim Ctim Birthtim].
  split; [|repeat split].
  destruct (Z.land mode fuse.S_IFMT =? fuse.S_IFDIR); [reflexivity|].
  destruct ((Z.land mode fuse.S_IFMT =? fuse.S_IFLNK)
            || (Z.land mode fuse.S_IFMT =? o0160000)); reflexivity.
Qed.

(** X24.  When [getattr] gives a target, the entry is a symlink or a
    submodule, the mode written is that of a symlink, and the size written
    is the length of the target. *)
Theorem getattr_target_is_link (fs : hubfs) (obs : obstack)
        (e : option TreeEntry) (path : string) (w w' : World)
        (stat : Stat_t) (target : string) (tr : list Event) :
  getattr fs obs e path w = (Ok (stat, target), w', tr) →
  target ≠ "" →
  ∃ ent, e = Some ent ∧ link_class (Entry_Mode ent) ∧
         Mode stat = Z.lor fuse.S_IFLNK o0777 ∧
         Size stat = Z.of_nat (String.length target).
Proof.
  unfold getattr. destruct e as [ent|].
  - unfold mbind, M_bind, mret, M_ret, deref, slice_from, call.
    destruct (ref obs) as [rf|]; [|discriminate].
    destruct (Z.land (Entry_Mode ent) fuse.S_IFMT =? fuse.S_IFLNK) eqn:Elnk.
    { intros [= <- <- _ _] _. exists ent.
      split; [reflexivity|]. split; [left; apply Z.eqb_eq; exact Elnk|].
      apply Z.eqb_eq in Elnk. unfold fuseStat, set_Size. rewrite Elnk.
      cbn [Mode Size]. split; reflexivity. }
    destruct (Z.land (Entry_Mode ent) fuse.S_IFMT =? o0160000) eqn:Esub.
    { destruct (decide (3 ≤ length (split (pathutil.Join [prefix fs; path])))%nat);
        [|discriminate].
      destruct (repository obs) as [repo|]; [|discriminate].
      cbn -[split pathutil.Join strings.TrimPrefix strings.TrimSuffix
            String.append String.eqb fuseStat].
      destruct (GetModule repo (Some rf) _ true w) as [[module err] w1].
      cbn -[split pathutil.Join strings.TrimPrefix strings.TrimSuffix
            String.append String.eqb fuseStat].
      intros [= <- <- _ _] _. exists ent.
      split; [reflexivity|]. split; [right; apply Z.eqb_eq; exact Esub|].
      apply Z.eqb_eq in Esub. unfold fuseStat, set_Size. rewrite Esub.
      cbn [Mode Size]. split; reflexivity. }
    intros [= _ <- _ _] H. congruence.
  - unfold now, call, mbind, M_bind, mret, M_ret.
    intros [= _ <- _ _] H. congruence.
Qed.

End Bounds.

(** ** [Read] and the reader of a handle *)

Section Reading_props.
Context `{B : BlobProviders}.

Lemma read_at_fs (fs fs' : hubfs) (rd : ReaderAt) (buff buff' : list ascii)
      (ofst n : Z) (w w' : World) (tr tr' : list BlobEvent) :
  read_at fs rd buff ofst w tr = (Ok (n, buff', fs'), w', tr') →
  fs' = fs ∧ ∃ m err, tr' = tr ++ [EvReadAt rd ofst m err].
Proof.
  unfold read_at. destruct (ReadAt rd buff ofst w) as [[[m b] err] w1].
  destruct err as [e|]; [destruct (negb (is_EOF e))|];
    intros [= _ _ <- _ <-]; eauto.
Qed.

Lemma read_at_returns (fs : hubfs) (rd : ReaderAt) (buff : list ascii)
      (ofst : Z) (w : World) (tr : list BlobEvent) :
  ∃ n buff' w' m err,
    read_at fs rd buff ofst w tr =
      (Ok (n, buff', fs), w', tr ++ [EvReadAt rd ofst m err]).
Proof.
  unfold read_at. destruct (ReadAt rd buff ofst w) as [[[m b] err] w1].
  destruct err as [e|]; [destruct (negb (is_EOF e))|]; do 5 eexists; reflexivity.
Qed.

(** X25.  The reader of a handle is fetched once.  A [Read] on a handle
    without a reader asks the provider for one; when it gets one it binds
    it to the handle, and every later [Read] on the handle reads from that
    reader without asking the provider again and leaves the table as it
    is. *)
Theorem Read_fetches_reader_once (fs : hubfs) (path : string)
        (buff : list ascii) (ofst h : Z) (obs : obstack) (repo : Repository)
        (rd : ReaderAt) (e : option error) (w w1 : World) :
  openmap fs !! h = Some (Some obs) →
  reader obs = None → repository obs = Some repo →
  GetBlobReader repo (entry obs) w = (Some rd, e, w1) →
  ∃ n buff1 fs1 w2 m err,
    Read fs path buff ofst h w =
      (Ok (n, buff1, fs1), w2,
       [EvGetBlobReader repo (entry obs) (Some rd) e;
        EvReadAt rd ofst m err]) ∧
    openmap fs1 !! h = Some (Some (set_reader obs (Some rd))) ∧
    ∀ (path' : string) (buff' : list ascii) (ofst' : Z) (w' : World),
      ∃ n' buff2 w3 m' err',
        Read fs1 path' buff' ofst' h w' =
          (Ok (n', buff2, fs1), w3, [EvReadAt rd ofst' m' err']).
Proof.
  intros Hlook Hrd Hrepo Hget.
  unfold Read at 1. rewrite Hlook, Hrd, Hrepo, Hget.
  match goal with
  | |- context [read_at ?f rd buff ofst w1 ?t] =>
      destruct (read_at_returns f rd buff ofst w1 t)
        as (n & buff1 & w2 & m & err & Hread);
      exists n, buff1, f, w2, m, err
  end.
  split; [exact Hread|]. cbn [openmap].
  split; [apply lookup_insert_eq|].
  intros path' buff' ofst' w'. unfold Read. cbn [openmap].
  rewrite lookup_insert_eq. cbn [reader set_reader].
  match goal with
  | |- context [read_at ?f rd buff' ofst' w' []] =>
      destruct (read_at_returns f rd buff' ofst' w' [])
        as (n' & buff2 & w3 & m' & err' & Hread')
  end.
  exists n', buff2, w3, m', err'. exact Hread'.
Qed.

(** X26.  [Read] never adds or removes a handle and never moves the
    counter: in the table only the reader of the obstack of its own handle
    can change. *)
Theorem Read_keeps_handles (fs fs' : hubfs) (path : string)
        (buff buff' : list ascii) (ofst h n : Z) (w w' : World)
        (tr : list BlobEvent) :
  Read fs path buff ofst h w = (Ok (n, buff', fs'), w', tr) →
  fh fs' = fh fs ∧ prefix fs' = prefix fs ∧
  (∀ k, k ≠ h → openmap fs' !! k = openmap fs !! k) ∧
  (openmap fs !! h = None → openmap fs' !! h = None) ∧
  (∀ obs, openmap fs !! h = Some (Some obs) →
          ∃ rd, openmap fs' !! h = Some (Some (set_reader obs rd))).
Proof.
  unfold Read.
  destruct (openmap fs !! h) as [[obs|]|] eqn:Hlook; [| discriminate |].
  - destruct (reader obs) as [rd|] eqn:Hrd.
    + intros [-> _]%read_at_fs. rewrite Hlook.
      repeat split; try discriminate.
      intros obs' [= <-]. exists (Some rd).
      destruct obs; cbn in *; subst; reflexivity.
    + destruct (repository obs) as [repo|]; [|discriminate].
      destruct (GetBlobReader repo (entry obs) w) as [[[rd|] e] w1].
      * intros [-> _]%read_at_fs. cbn [fh prefix openmap].
        split; [reflexivity|]. split; [reflexivity|]. split; [|split].
        -- intros k Hk. apply lookup_insert_ne. congruence.
        -- discriminate.
        -- intros obs' [= <-]. exists (Some rd). apply lookup_insert_eq.
      * intros [= _ _ <- _ _]. rewrite Hlook.
        repeat split; try discriminate.
        intros obs' [= <-]. exists None.
        destruct obs; cbn in *; subst; reflexivity.
  - intros [= _ _ <- _ _]. rewrite Hlook. repeat split; discriminate.
Qed.

(** X27.  A reader that [Read] bound to a handle is closed by [Release] of
    the handle, before the repository and the owner, when it can be
    closed. *)
Theorem Read_then_Release_closes_reader (fs fs1 : hubfs) (path path' : string)
        (buff buff1 : list ascii) (ofst h n : Z) (obs : obstack)
        (repo : Repository) (rd : ReaderAt) (e : option error)
        (close : World → World) (w w1 w2 : World) (tr : list BlobEvent) :
  openmap fs !! h = Some (Some obs) →
  reader obs = None → repository obs = Some repo →
  Read fs path buff ofst h w =
    (Ok (n, buff1, fs1), w1,
     EvGetBlobReader repo (entry obs) (Some rd) e :: tr) →
  Reader_Close rd = Some close →
  ∃ w3 tr3,
    Release fs1 path' h w2 =
      (Ok (0, mkHubfs (prefix fs) (fh fs) (delete h (openmap fs))), w3,
       EvReaderClose rd :: EvCloseRepository (Some repo) :: tr3) ∧
    closed_owners tr3 = held_owner obs.
Proof.
  intros Hlook Hrd Hrepo Hread Hclose.
  unfold Read in Hread. rewrite Hlook, Hrd, Hrepo in Hread.
  destruct (GetBlobReader repo (entry obs) w) as [[[rd'|] e'] w0];
    [|discriminate Hread].
  destruct (read_at_returns
              (mkHubfs (prefix fs) (fh fs)
                 (<[h := Some (set_reader obs (Some rd'))]> (openmap fs)))
              rd' buff ofst w0 [EvGetBlobReader repo (entry obs) (Some rd') e'])
    as (n0 & b0 & w4 & m & err & Hrun).
  rewrite Hrun in Hread. injection Hread as _ _ <- _ <- _.
  unfold Release, release. cbn [openmap prefix fh].
  rewrite lookup_insert_eq.
  unfold deref, call_, mbind, M_bind, mret, M_ret.
  cbn [reader set_reader repository owner]. rewrite Hclose, Hrepo.
  rewrite delete_insert_eq.
  unfold held_owner. destruct (owner obs) as [o|];
    cbn [app]; do 2 eexists; (split; [reflexivity|]); reflexivity.
Qed.

End Reading_props.

(** ** Concrete runs *)

(** [/alice] resolves and is no link. *)
Lemma Readlink_above_entries_witness :
  ∃ errc w' tr,
    Readlink (P := demo.providers) demo.fs0 "/alice" (demo.mkWorld true 0)
    = (Ok (errc, ""), w', tr) ∧ errc ≠ 0 ∧
    ((∃ obs w1 t1, open (P := demo.providers) demo.fs0 "/alice"
                        (demo.mkWorld true 0) = (Ok (0, Some obs), w1, t1)) →
     errc = - fuse.EINVAL).
Proof.
  apply (Readlink_above_entries (P := demo.providers) demo.fs0 "/alice"
           (demo.mkWorld true 0)).
  vm_compute. lia.
Defined.

(** A regular file is no link: the path with [/.] behind it gets the
    attributes of the file. *)
Lemma Getattr_dot_of_non_link_witness :
  let stat := mkStat (P := demo.providers) 0 0 0 0 0 0 0 in
  let w := demo.mkWorld true 0 in
  Getattr (P := demo.providers) demo.fs0 "/alice/project/main/README.md/."
          stat 0 w
  = Getattr (P := demo.providers) demo.fs0 "/alice/project/main/README.md"
            stat 0 w.
Proof.
  cbv zeta.
  apply (Getattr_dot_of_non_link (P := demo.providers) demo.fs0
           "/alice/project/main/README.md"
           (mkStat (P := demo.providers) 0 0 0 0 0 0 0) 0
           (demo.mkWorld true 0) (demo.mkWorld true 0) (- fuse.EINVAL) ""
           [EvOpenOwner (P := demo.providers) "alice" (Val "Alice");
            EvOpenRepository (P := demo.providers) (Some "Alice") "project"
                             (Val "Project");
            EvGetRef (P := demo.providers) "Project" "refs/heads/main"
                     (Val "refs/heads/main");
            EvGetTreeEntry (P := demo.providers) "Project"
                           (Some "refs/heads/main") None "README.md"
                           (Val (demo.mkEntry "README.md"
                                   (Z.lor fuse.S_IFREG o0644) ""));
            EvCloseRepository (P := demo.providers) (Some "Project");
            EvCloseOwner (P := demo.providers) (Some "Alice")]).
  - vm_compute. reflexivity.
  - vm_compute. intros H. discriminate H.
Defined.

Lemma Getattr_rejects_dotted_and_HEAD_witness :
  let stat := mkStat (P := demo.providers) 0 0 0 0 0 0 0 in
  Getattr (P := demo.providers) demo.fs0 "/HEAD/x" stat 0 (demo.mkWorld true 0)
  = (Ok (- fuse.ENOENT, stat), demo.mkWorld true 0, []).
Proof.
  cbv zeta.
  apply (Getattr_rejects_dotted_and_HEAD (P := demo.providers) demo.fs0
           "/HEAD/x" (mkStat (P := demo.providers) 0 0 0 0 0 0 0) 0
           (demo.mkWorld true 0) "HEAD" ["x"]).
  - vm_compute. reflexivity.
  - right. reflexivity.
Defined.

Lemma tokens_of_rooted_prefix_are_names_witness :
  split (pathutil.Join ["/mnt"; "alice//project/../x/./"]) = ["mnt"; "alice"; "x"] ∧
  Forall name_token (split (pathutil.Join ["/mnt"; "alice//project/../x/./"])).
Proof.
  split; [vm_compute; reflexivity|].
  apply (tokens_of_rooted_prefix_are_names "/mnt" "alice//project/../x/./").
  vm_compute. reflexivity.
Defined.

Lemma unknown_handle_is_ENOENT_witness :
  let w := demo.mkWorld true 10 in
  Readdir (P := demo.providers) demo.fs0 "/" demo.fill 0 7 w
    = (Ok (- fuse.ENOENT), w, []) ∧
  Releasedir (P := demo.providers) demo.fs0 "/" 7 w
    = (Ok (- fuse.ENOENT, demo.fs0), w, []) ∧
  Release (P := demo.providers) demo.fs0 "/" 7 w
    = (Ok (- fuse.ENOENT, demo.fs0), w, []).
Proof.
  cbv zeta.
  apply (unknown_handle_is_ENOENT (P := demo.providers) demo.fs0 "/"
           demo.fill 0 7 (demo.mkWorld true 10)).
  vm_compute. reflexivity.
Defined.

Lemma Releasedir_removes_handle_witness :
  let w := demo.mkWorld true 0 in
  let fs := demo.opened "/alice/project" w in
  ∃ fs',
    (Releasedir (P := demo.providers) fs "/alice/project" 0 w).1.1
      = Ok (0, fs') ∧
    openmap fs' = delete 0 (openmap fs) ∧
    fh fs' = fh fs ∧ prefix fs' = prefix fs ∧
    Releasedir (P := demo.providers) fs' "/alice/project" 0 w
      = (Ok (- fuse.ENOENT, fs'), w, []).
Proof.
  cbv zeta. eexists. split; [vm_compute; reflexivity|].
  eapply (Releasedir_removes_handle (P := demo.providers)
            (demo.opened "/alice/project" (demo.mkWorld true 0)) _
            "/alice/project" "/alice/project" 0 (demo.mkWorld true 0)).
  vm_compute. reflexivity.
Defined.

Lemma Opendir_Releasedir_round_trip_witness :
  let w := demo.mkWorld true 0 in
  let t1 := [EvOpenOwner (P := demo.providers) "alice" (Val "Alice");
             EvOpenRepository (P := demo.providers) (Some "Alice") "project"
                              (Val "Project")] in
  Opendir (P := demo.providers) demo.fs0 "/alice/project" w
    = (Ok (0, 0, demo.opened "/alice/project" w), w, t1) ∧
  ∃ w2 t2,
    Releasedir (P := demo.providers) (demo.opened "/alice/project" w)
               "/alice/project" 0 w =
      (Ok (0, mkHubfs (P := demo.providers) "/" 1 ∅), w2, t2) ∧
    closed_owners (t1 ++ t2) = opened_owners (t1 ++ t2) ∧
    closed_repositories (t1 ++ t2) = opened_repositories (t1 ++ t2).
Proof.
  cbv zeta. split; [vm_compute; reflexivity|].
  apply (Opendir_Releasedir_round_trip (P := demo.providers) demo.fs0
           (demo.opened "/alice/project" (demo.mkWorld true 0))
           "/alice/project" "/alice/project" 0
           (demo.mkWorld true 0) (demo.mkWorld true 0)).
  - vm_compute. reflexivity.
  - vm_compute. reflexivity.
Defined.

(** [Release] of a handle on a file: the repository, then the owner. *)
Lemma Release_closes_in_order_witness :
  let w := demo.mkWorld true 0 in
  let fs := demo.opened "/alice/project/main/README.md" w in
  ∃ w',
    Release (P := demo.providers) fs "/alice/project/main/README.md" 0 w =
      (Ok (0, mkHubfs (P := demo.providers) "/" 1 ∅), w',
       [EvCloseRepository (P := demo.providers) (Some "Project");
        EvCloseOwner (P := demo.providers) (Some "Alice")]).
Proof.
  cbv zeta.
  apply (Release_closes_in_order (P := demo.providers)
           (demo.opened "/alice/project/main/README.md" (demo.mkWorld true 0))
           "/alice/project/main/README.md" 0
           (mkObstack (P := demo.providers) (Some "Alice") (Some "Project")
              (Some "refs/heads/main")
              (Some (demo.mkEntry "README.md" (Z.lor fuse.S_IFREG o0644) ""))
              None)
           (demo.mkWorld true 0)).
  vm_compute. reflexivity.
Defined.

Lemma live_handles_below_counter_witness :
  ∃ fs w',
    run (P := demo.providers) (new (mkConfig "/" false false))
      [ReqOpendir "/"; ReqOpen "/alice/project/main/README.md" 0;
       ReqOpen "/bob" 0; ReqReleasedir "/" 0; ReqOpendir "/alice"]
      (demo.mkWorld true 0) = (Ok fs, w') ∧
    fh fs = 3 ∧
    openmap fs !! fh fs = None ∧
    ∀ (k : Z) (o : option obstack),
      openmap fs !! k = Some o →
      0 ≤ k < fh fs ∧ ∃ obs n, o = Some obs ∧ populated n obs.
Proof.
  eexists _, _. split; [vm_compute; reflexivity|].
  split; [reflexivity|].
  eapply (live_handles_below_counter (P := demo.providers)
            (mkConfig "/" false false)
            [ReqOpendir "/"; ReqOpen "/alice/project/main/README.md" 0;
             ReqOpen "/bob" 0; ReqReleasedir "/" 0; ReqOpendir "/alice"]
            _ (demo.mkWorld true 0) _).
  - vm_compute. reflexivity.
  - vm_compute. reflexivity.
Defined.




Lemma Encode_of_looked_up_ref_witness :
  Encode ("refs/heads/" +:+ Decode "feature x") = "feature x" ∧
  Encode ("refs/tags/" +:+ Decode "feature x") = "feature x".
Proof.
  apply (Encode_of_looked_up_ref "feature x"). vm_compute. reflexivity.
Defined.

Lemma listed_head_resolves_back_witness :
  ∃ n, heads_listing (P := demo.providers) ["refs/heads/feature/x"] = [n] ∧
       has_byte "/" n = false ∧
       (has_byte " " "feature/x" = false →
        "refs/heads/" +:+ Decode n = "refs/heads/feature/x").
Proof.
  apply (listed_head_resolves_back (P := demo.providers)
           "refs/heads/feature/x" "feature/x").
  reflexivity.
Defined.

(** [Readdir] of a ref with the path ["/"]: the submodule entry of the
    tree makes [getattr] panic. *)
Lemma getattr_submodule_needs_three_tokens_witness :
  let obs := mkObstack (P := demo.providers) (Some "Alice") (Some "Project")
               (Some "refs/heads/main") None None in
  let e := demo.mkEntry "sub" o0160000 "../elsewhere" in
  (getattr (P := demo.providers) demo.fs0 obs (Some e) "/"
           (demo.mkWorld true 0)).1.1 = Panic ↔
  (length (split (pathutil.Join [prefix demo.fs0; "/"])) < 3)%nat.
Proof.
  cbv zeta.
  apply (getattr_submodule_needs_three_tokens (P := demo.providers) demo.fs0
           (mkObstack (P := demo.providers) (Some "Alice") (Some "Project")
              (Some "refs/heads/main") None None)
           (demo.mkEntry "sub" o0160000 "../elsewhere")
           "refs/heads/main" "Project" "/" (demo.mkWorld true 0)).
  - reflexivity.
  - reflexivity.
  - vm_compute. reflexivity.
Defined.

(** ** Concrete reads *)

Lemma Read_fetches_reader_once_witness :
  let w := demo.mkWorld true 0 in
  Read (P := blobs.providers) (B := blobs.blob_providers) blobs.opened_readme
       "/alice/project/main/README.md" (repeat "."%char 8) 1 0 w
  = (Ok (4, list_ascii_of_string "ello....",
         mkHubfs (P := blobs.providers) "/" 1
           {[ 0 := Some (set_reader blobs.readme_obs (Some "hello")) ]}),
     w,
     [EvGetBlobReader (P := blobs.providers) "Project" (Some blobs.readme)
                      (Some "hello") None;
      EvReadAt (P := blobs.providers) "hello" 1 4 (Some io_EOF)]) ∧
  ∃ n buff1 fs1 w2 m err,
    Read (P := blobs.providers) (B := blobs.blob_providers) blobs.opened_readme
         "/alice/project/main/README.md" (repeat "."%char 8) 1 0 w =
      (Ok (n, buff1, fs1), w2,
       [EvGetBlobReader (P := blobs.providers) "Project"
                        (entry blobs.readme_obs) (Some "hello") None;
        EvReadAt (P := blobs.providers) "hello" 1 m err]) ∧
    openmap fs1 !! 0 = Some (Some (set_reader blobs.readme_obs (Some "hello"))) ∧
    ∀ (path' : string) (buff' : list ascii) (ofst' : Z) (w' : demo.world),
      ∃ n' buff2 w3 m' err',
        Read (P := blobs.providers) (B := blobs.blob_providers) fs1 path'
             buff' ofst' 0 w' =
          (Ok (n', buff2, fs1), w3,
           [EvReadAt (P := blobs.providers) "hello" ofst' m' err']).
Proof.
  cbv zeta. split; [vm_compute; reflexivity|].
  apply (Read_fetches_reader_once (P := blobs.providers)
           (B := blobs.blob_providers) blobs.opened_readme
           "/alice/project/main/README.md" (repeat "."%char 8) 1 0
           blobs.readme_obs "Project" "hello" None
           (demo.mkWorld true 0) (demo.mkWorld true 0)).
  - vm_compute. reflexivity.
  - reflexivity.
  - reflexivity.
  - reflexivity.
Defined.

Lemma Read_keeps_handles_witness :
  let w := demo.mkWorld true 0 in
  let fs' := mkHubfs (P := blobs.providers) "/" 1
               {[ 0 := Some (set_reader blobs.readme_obs (Some "hello")) ]} in
  fh fs' = fh blobs.opened_readme ∧ prefix fs' = prefix blobs.opened_readme ∧
  (∀ k, k ≠ 0 → openmap fs' !! k = openmap blobs.opened_readme !! k) ∧
  (openmap blobs.opened_readme !! 0 = None → openmap fs' !! 0 = None) ∧
  (∀ obs, openmap blobs.opened_readme !! 0 = Some (Some obs) →
          ∃ rd, openmap fs' !! 0 = Some (Some (set_reader obs rd))).
Proof.
  cbv zeta.
  apply (Read_keeps_handles (P := blobs.providers) (B := blobs.blob_providers)
           blobs.opened_readme _ "/alice/project/main/README.md"
           (repeat "."%char 8) (list_ascii_of_string "ello....") 1 0 4
           (demo.mkWorld true 0) (demo.mkWorld true 0)
           [EvGetBlobReader (P := blobs.providers) "Project" (Some blobs.readme)
                            (Some "hello") None;
            EvReadAt (P := blobs.providers) "hello" 1 4 (Some io_EOF)]).
  vm_compute. reflexivity.
Defined.

Lemma Read_then_Release_closes_reader_witness :
  let w := demo.mkWorld true 0 in
  let fs1 := mkHubfs (P := blobs.providers) "/" 1
               {[ 0 := Some (set_reader blobs.readme_obs (Some "hello")) ]} in
  ∃ w3 tr3,
    Release (P := blobs.providers) fs1 "/alice/project/main/README.md" 0 w =
      (Ok (0, mkHubfs (P := blobs.providers) "/" 1 ∅), w3,
       EvReaderClose (P := blobs.providers) "hello"
         :: EvCloseRepository (P := blobs.providers) (Some "Project") :: tr3) ∧
    closed_owners tr3 = [Some "Alice"].
Proof.
  cbv zeta.
  apply (Read_then_Release_closes_reader (P := blobs.providers)
           (B := blobs.blob_providers) blobs.opened_readme _
           "/alice/project/main/README.md" "/alice/project/main/README.md"
           (repeat "."%char 8) (list_ascii_of_string "ello....") 1 0 4
           blobs.readme_obs "Project" "hello" None (λ w, w)
           (demo.mkWorld true 0) (demo.mkWorld true 0) (demo.mkWorld true 0)
           [EvReadAt (P := blobs.providers) "hello" 1 4 (Some io_EOF)]).
  - vm_compute. reflexivity.
  - reflexivity.
  - reflexivity.
  - vm_compute. reflexivity.
  - reflexivity.
Defined.

(** The submodule [sub] points to [../elsewhere], which is no ref of the
    repository: one link is followed, two owners are opened. *)
Lemma Getattr_follows_at_most_16_links_witness :
  let run := Getattr (P := demo.providers) demo.fs0 "/alice/project/main/sub/."
               (mkStat (P := demo.providers) 0 0 0 0 0 0 0) 0
               (demo.mkWorld true 0) in
  opened_owners run.2 = [Some "Alice"; Some "Alice"] ∧
  (length (opened_owners run.2) ≤ 17)%nat ∧
  (length (opened_repositories run.2) ≤ 17)%nat.
Proof.
  cbv zeta. split; [vm_compute; reflexivity|].
  eapply (Getattr_follows_at_most_16_links (P := demo.providers) demo.fs0
            "/alice/project/main/sub/."
            (mkStat (P := demo.providers) 0 0 0 0 0 0 0) _ 0 _
            (demo.mkWorld true 0) _ _).
  vm_compute. reflexivity.
Defined.

Lemma getattr_target_is_link_witness :
  let sub := demo.mkEntry "sub" o0160000 "../elsewhere" in
  ∃ ent, Some sub = Some ent ∧ link_class (Entry_Mode (Providers := demo.providers) ent) ∧
         Z.lor fuse.S_IFLNK o0777 = Z.lor fuse.S_IFLNK o0777 ∧
         12 = Z.of_nat (String.length "../elsewhere").
Proof.
  cbv zeta.
  apply (getattr_target_is_link (P := demo.providers) demo.fs0
           (mkObstack (P := demo.providers) (Some "Alice") (Some "Project")
              (Some "refs/heads/main") None None)
           (Some (demo.mkEntry "sub" o0160000 "../elsewhere"))
           "/alice/project/main/sub" (demo.mkWorld true 0) (demo.mkWorld true 0)
           (mkStat (P := demo.providers) (Z.lor fuse.S_IFLNK o0777) 1 12
              1600000000 1600000000 1600000000 1600000000)
           "../elsewhere"
           [EvGetModule (P := demo.providers) "Project" (Some "refs/heads/main")
                        "sub" true "" (Some ErrNotFound)]).
  - vm_compute. reflexivity.
  - intros H. discriminate H.
Defined.
